(** * crabpp: ownership handles over a manually managed heap

    A shallow embedding of [include/box.hpp] (the exclusive owner [Box<T>])
    and [include/rc.hpp] (the shared owner [Rc<T>]).

    C++ objects of handle type live in a store of named objects, so that two
    references ([this] and the argument of an assignment) can denote the same
    object.  Payloads and reference counters live in a heap indexed by
    addresses.  Every member function is a computation in a state-and-fault
    monad over that pair. *)

From stdpp Require Import base gmap list strings numbers.

Local Open Scope Z_scope.

(** ** Faults, heap cells and the machine state *)

(** What the C++ standard leaves undefined and the code can run into. *)
Inductive ub : Type :=
  | NullDeref        (* indirection through nullptr *)
  | UseAfterFree     (* indirection through a dangling address *)
  | InvalidFree      (* delete of an address that is not allocated: double free *)
  | MismatchedDelete (* delete of a new[] block, delete[] of a new object *)
  | TypeConfusion    (* the cell at the address has another type *)
  | OutOfBounds      (* element access past the end of a block *)
  | OutOfLifetime.   (* a handle object used outside of its lifetime *)

Inductive fault : Type :=
  | AssertionFailure (msg : string)  (* debug_assert aborted the process *)
  | UndefinedBehaviour (u : ub)
  | BadAlloc.                        (* operator new threw *)

Inductive result (A : Type) : Type :=
  | Ok (a : A)
  | Fault (f : fault).
Arguments Ok {A} a.
Arguments Fault {A} f.

(** The two build configurations of the assertion facility. *)
Inductive build : Type := Debug | Release.

(** What a heap address holds: an object made by [new T{..}], a block made by
    [new T[n]], or a counter made by [new usize{0}]. *)
Inductive cell (T : Type) : Type :=
  | Object (v : T)
  | Block (vs : list T)
  | Counter (n : Z).
Arguments Object {T} v.
Arguments Block {T} vs.
Arguments Counter {T} n.

Inductive cell_kind : Type := KObject | KBlock | KCounter.

Definition kind_of {T} (c : cell T) : cell_kind :=
  match c with
  | Object _ => KObject
  | Block _ => KBlock
  | Counter _ => KCounter
  end.

Global Instance cell_kind_eq_dec : EqDecision cell_kind.
Proof. solve_decision. Defined.

Definition nullptr : N := 0%N.

(** An lvalue of payload type: the allocation and the element inside it. *)
Record place : Type := mkPlace { place_addr : N; place_index : Z }.

(** [heap]: the allocations that are live; [freed]: the log of deallocations,
    newest first; [objs]: the handle objects that are within their lifetime. *)
Record state (T H : Type) : Type := mkState {
  heap : gmap N (cell T);
  freed : list N;
  objs : gmap nat H
}.
Arguments mkState {T H} heap freed objs.
Arguments heap {T H} s.
Arguments freed {T H} s.
Arguments objs {T H} s.

Definition M (T H A : Type) : Type := state T H -> result (A * state T H).

Definition ret {T H A} (a : A) : M T H A := fun s => Ok (a, s).

Definition bind {T H A B} (m : M T H A) (k : A -> M T H B) : M T H B :=
  fun s =>
    match m s with
    | Ok (a, s') => k a s'
    | Fault f => Fault f
    end.

Definition fail {T H A} (f : fault) : M T H A := fun _ => Fault f.

Declare Scope cpp_scope.
Delimit Scope cpp_scope with cpp.
Notation "x <- m ;; k" := (bind m (fun x => k))
  (at level 100, m at next level, right associativity) : cpp_scope.
Notation "m ;; k" := (bind m (fun _ => k))
  (at level 100, right associativity) : cpp_scope.
Local Open Scope cpp_scope.

(** Modelled from the spec: [debug_assert] of crab/debug.hpp, which is not
    among the sources: "a predicate-plus-message check that is a no-op in
    optimized builds and fatally aborts the process with a diagnostic message
    in debug builds". *)
Definition debug_assert {T H} (b : build) (cond : bool) (msg : string) : M T H unit :=
  match b with
  | Debug => if cond then ret tt else fail (AssertionFailure msg)
  | Release => ret tt
  end.

(** [#if DEBUG ... #endif] *)
Definition if_DEBUG {T H} (b : build) (m : M T H unit) : M T H unit :=
  match b with
  | Debug => m
  | Release => ret tt
  end.

Section Memory.
Context {T H : Type}.

(** [new]: the allocator picks the address; [None] is exhaustion. *)
Definition new_ (alloc : gmap N (cell T) -> option N) (c : cell T) : M T H N :=
  fun s =>
    match alloc (heap s) with
    | Some p => Ok (p, mkState (<[p := c]> (heap s)) (freed s) (objs s))
    | None => Fault BadAlloc
    end.

(** [delete p] / [delete[] p], [k] being the form the expression expects.
    Deleting nullptr does nothing. *)
Definition delete_ (k : cell_kind) (p : N) : M T H unit :=
  fun s =>
    if decide (p = nullptr) then Ok (tt, s)
    else match heap s !! p with
         | Some c =>
             if decide (kind_of c = k)
             then Ok (tt, mkState (delete p (heap s)) (p :: freed s) (objs s))
             else Fault (UndefinedBehaviour MismatchedDelete)
         | None => Fault (UndefinedBehaviour InvalidFree)
         end.

(** The lvalue [p[i]] ([*p] is [p[0]]). *)
Definition lvalue (p : N) (i : Z) : M T H place :=
  fun s =>
    if decide (p = nullptr) then Fault (UndefinedBehaviour NullDeref)
    else match heap s !! p with
         | Some (Object _) =>
             if decide (i = 0) then Ok (mkPlace p i, s)
             else Fault (UndefinedBehaviour OutOfBounds)
         | Some (Block vs) =>
             if decide (0 <= i < Z.of_nat (length vs)) then Ok (mkPlace p i, s)
             else Fault (UndefinedBehaviour OutOfBounds)
         | Some (Counter _) => Fault (UndefinedBehaviour TypeConfusion)
         | None => Fault (UndefinedBehaviour UseAfterFree)
         end.

(** Reading through a reference. *)
Definition read (r : place) : M T H T :=
  fun s =>
    match heap s !! place_addr r with
    | Some (Object v) =>
        if decide (place_index r = 0) then Ok (v, s)
        else Fault (UndefinedBehaviour OutOfBounds)
    | Some (Block vs) =>
        match vs !! Z.to_nat (place_index r) with
        | Some v => if decide (0 <= place_index r) then Ok (v, s)
                    else Fault (UndefinedBehaviour OutOfBounds)
        | None => Fault (UndefinedBehaviour OutOfBounds)
        end
    | Some (Counter _) => Fault (UndefinedBehaviour TypeConfusion)
    | None => Fault (UndefinedBehaviour UseAfterFree)
    end.

(** [*p] for [p : usize*]. *)
Definition load_count (p : N) : M T H Z :=
  fun s =>
    if decide (p = nullptr) then Fault (UndefinedBehaviour NullDeref)
    else match heap s !! p with
         | Some (Counter n) => Ok (n, s)
         | Some _ => Fault (UndefinedBehaviour TypeConfusion)
         | None => Fault (UndefinedBehaviour UseAfterFree)
         end.

(** [*p = n] for [p : usize*]. *)
Definition store_count (p : N) (n : Z) : M T H unit :=
  fun s =>
    if decide (p = nullptr) then Fault (UndefinedBehaviour NullDeref)
    else match heap s !! p with
         | Some (Counter _) =>
             Ok (tt, mkState (<[p := Counter n]> (heap s)) (freed s) (objs s))
         | Some _ => Fault (UndefinedBehaviour TypeConfusion)
         | None => Fault (UndefinedBehaviour UseAfterFree)
         end.

(** Handle objects: reading and writing one that is alive, starting the
    lifetime of a new one (a constructor), ending it (a destructor). *)
Definition load (x : nat) : M T H H :=
  fun s =>
    match objs s !! x with
    | Some h => Ok (h, s)
    | None => Fault (UndefinedBehaviour OutOfLifetime)
    end.

Definition store (x : nat) (h : H) : M T H unit :=
  fun s =>
    match objs s !! x with
    | Some _ => Ok (tt, mkState (heap s) (freed s) (<[x := h]> (objs s)))
    | None => Fault (UndefinedBehaviour OutOfLifetime)
    end.

Definition begin_lifetime (x : nat) (h : H) : M T H unit :=
  fun s =>
    match objs s !! x with
    | None => Ok (tt, mkState (heap s) (freed s) (<[x := h]> (objs s)))
    | Some _ => Fault (UndefinedBehaviour OutOfLifetime)
    end.

Definition end_lifetime (x : nat) : M T H unit :=
  fun s =>
    match objs s !! x with
    | Some _ => Ok (tt, mkState (heap s) (freed s) (delete x (objs s)))
    | None => Fault (UndefinedBehaviour OutOfLifetime)
    end.

(** Storage for a by-value parameter or a temporary: a name not in use. *)
Definition local : M T H nat :=
  fun s => Ok (fresh (dom (objs s)), s).
(** Assignment through a reference: [r = v]. *)
Definition write (r : place) (v : T) : M T H unit :=
  fun s =>
    match heap s !! place_addr r with
    | Some (Object _) =>
        if decide (place_index r = 0)
        then Ok (tt, mkState (<[place_addr r := Object v]> (heap s)) (freed s) (objs s))
        else Fault (UndefinedBehaviour OutOfBounds)
    | Some (Block vs) =>
        if decide (0 <= place_index r < Z.of_nat (length vs))
        then Ok (tt, mkState (<[place_addr r := Block (<[Z.to_nat (place_index r) := v]> vs)]>
                                (heap s)) (freed s) (objs s))
        else Fault (UndefinedBehaviour OutOfBounds)
    | Some (Counter _) => Fault (UndefinedBehaviour TypeConfusion)
    | None => Fault (UndefinedBehaviour UseAfterFree)
    end.

(** [for (usize i = from; i < count; i++) body(i)], [w] being the width of
    [usize].  [None]: the fuel ran out before the loop ended. *)
Fixpoint for_usize (fuel : nat) (w : Z) (i count : Z) (body : Z -> M T H unit)
    (s : state T H) : option (result (unit * state T H)) :=
  if Z.ltb i count then
    match fuel with
    | O => None
    | S fuel' =>
        match body i s with
        | Ok (_, s') => for_usize fuel' w ((i + 1) mod 2 ^ w) count body s'
        | Fault f => Some (Fault f)
        end
    end
  else Some (Ok (tt, s)).
End Memory.

(** ** box.hpp *)
Module box.

(** [crab::box::helper<T>] and [helper<T[]>]: the storage shape is fixed per
    instantiation; the scalar shape carries [unit] for a size. *)
Inductive shape : Type := Single | Array.

Definition SizeType (sh : shape) : Type :=
  match sh with
  | Single => unit
  | Array => Z
  end.

Definition DEFAULT_SIZE (sh : shape) : SizeType sh :=
  match sh with
  | Single => tt
  | Array => 0
  end.

Record Box (sh : shape) : Type := mkBox { obj : N; size : SizeType sh }.
Arguments obj {sh} b.
Arguments size {sh} b.

Section Methods.
Context {T : Type}.
Variable bld : build.

Abbreviation BM sh := (M T (Box sh)).

(** [std::exchange(x.obj, v)] and [std::exchange(x.size, n)] *)
Definition exchange_obj {sh} (x : nat) (v : N) : BM sh N :=
  b <- load x ;;
  store x (mkBox sh v (size b)) ;;
  ret (obj b).

Definition exchange_size {sh} (x : nat) (n : SizeType sh) : BM sh (SizeType sh) :=
  b <- load x ;;
  store x (mkBox sh (obj b) n) ;;
  ret (size b).

(** [this->obj = v] *)
Definition set_obj {sh} (x : nat) (v : N) : BM sh unit :=
  b <- load x ;;
  store x (mkBox sh v (size b)).

Definition set_size {sh} (x : nat) (n : SizeType sh) : BM sh unit :=
  b <- load x ;;
  store x (mkBox sh (obj b) n).

(** [explicit Box(const MutPtr from) requires(not IS_ARRAY)] *)
Definition Box_from_ptr (this : nat) (from : N) : BM Single unit :=
  begin_lifetime this (mkBox Single from (DEFAULT_SIZE Single)).

(** [explicit Box(const MutPtr from, SizeType length) requires IS_ARRAY] *)
Definition Box_from_ptr_len (this : nat) (from : N) (length : Z) : BM Array unit :=
  begin_lifetime this (mkBox Array from length).

(** [drop()]: [delete[] obj] for the array shape, [delete obj] otherwise. *)
Definition drop {sh} (this : nat) : BM sh unit :=
  b <- load this ;;
  match sh with
  | Array => delete_ KBlock (obj b)
  | Single => delete_ KObject (obj b)
  end.

(** [~Box() { drop(); }] *)
Definition Box_dtor {sh} (this : nat) : BM sh unit :=
  drop this ;;
  end_lifetime this.

(** [raw_ptr()], const or not. *)
Definition raw_ptr {sh} (this : nat) : BM sh N :=
  b <- load this ;;
  if_DEBUG bld
    (debug_assert bld (negb (N.eqb (obj b) nullptr)) "Invalid Use of Moved Box<T>.") ;;
  ret (obj b).

Definition as_ptr {sh} (this : nat) : BM sh N := raw_ptr this.

(** [operator->] *)
Definition arrow {sh} (this : nat) : BM sh N := as_ptr this.

(** [operator*]: [*as_ptr()] *)
Definition deref {sh} (this : nat) : BM sh place :=
  p <- as_ptr this ;;
  lvalue p 0.

(** [length()] *)
Definition length {sh} (this : nat) : BM sh (SizeType sh) :=
  b <- load this ;;
  ret (size b).

(** [*box] read as a value, as [operator<<] does with [os << *rhs]. *)
Definition value {sh} (this : nat) : BM sh T :=
  r <- deref this ;;
  read r.

(** [operator[](index) requires IS_ARRAY] *)
Definition index (this : nat) (i : Z) : BM Array place :=
  b <- (load this : BM Array (Box Array)) ;;
  debug_assert bld (Z.ltb i (size b)) "Index out of Bounds" ;;
  p <- as_ptr this ;;
  lvalue p i.

(** [wrap_unchecked(ref) requires IS_SINGLE]; the returned object is
    built in [this]. *)
Definition wrap_unchecked (this : nat) (ref : N) : BM Single unit :=
  Box_from_ptr this ref.

(** [wrap_unchecked(ref, length) requires IS_ARRAY] *)
Definition wrap_unchecked_array (this : nat) (ref : N) (length : Z) : BM Array unit :=
  Box_from_ptr_len this ref length.

(** [Box(Box &&from)] *)
Definition Box_move (sh : shape) (this from : nat) : BM sh unit :=
  o <- exchange_obj from nullptr ;;
  n <- exchange_size from (DEFAULT_SIZE sh) ;;
  begin_lifetime this (mkBox sh o n).

(** [__release_for_derived()] *)
Definition __release_for_derived (this : nat) : BM Single N :=
  exchange_obj this nullptr.

(** [Box(Box<Derived> &&from)]: the pointer conversion from [Derived*] to
    [T*] keeps the address. *)
Definition Box_from_derived (this from : nat) : BM Single unit :=
  p <- __release_for_derived from ;;
  Box_from_ptr this p ;;
  b <- load this ;;
  debug_assert bld (negb (N.eqb (obj b) nullptr)) "Invalid Box, moved from invalid box.".

(** [operator=(Box &&rhs) requires IS_SINGLE] *)
Definition move_assign (this rhs : nat) : BM Single unit :=
  drop this ;;
  o <- exchange_obj rhs nullptr ;;
  set_obj this o.

(** [operator=(Box rhs) requires IS_ARRAY]: [rhs] is a by-value parameter,
    move-constructed from the argument and destroyed on return. *)
Definition move_assign_array (this arg : nat) : BM Array unit :=
  rhs <- local ;;
  Box_move Array rhs arg ;;
  drop this ;;
  o <- exchange_obj rhs nullptr ;;
  set_obj this o ;;
  n <- exchange_size rhs (DEFAULT_SIZE Array) ;;
  set_size this n ;;
  Box_dtor rhs.

(** [static unwrap(Box box) requires IS_SINGLE]: [box] is a by-value
    parameter, move-constructed from the argument. *)
Definition unwrap (arg : nat) : BM Single N :=
  box <- local ;;
  Box_move Single box arg ;;
  ptr <- raw_ptr box ;;
  set_obj box nullptr ;;
  Box_dtor box ;;
  ret ptr.

(** [static unwrap(Box box) requires IS_ARRAY] *)
Definition unwrap_array (arg : nat) : BM Array (N * Z) :=
  box <- local ;;
  Box_move Array box arg ;;
  p <- exchange_obj box nullptr ;;
  n <- exchange_size box (DEFAULT_SIZE Array) ;;
  Box_dtor box ;;
  ret (p, n).

(** [crab::release(Box<T> box) requires Box<T>::IS_SINGLE] *)
Definition release (arg : nat) : BM Single N :=
  box <- local ;;
  Box_move Single box arg ;;
  p <- unwrap box ;;
  Box_dtor box ;;
  ret p.

(** [explicit Box(T val)] and [explicit Box(T &&val)]:
    [Box(new Contained(val))] *)
Definition Box_from_value (alloc : gmap N (cell T) -> option N) (this : nat) (val : T)
    : BM Single unit :=
  p <- new_ alloc (Object val) ;;
  Box_from_ptr this p.

(** [crab::make_box<T>(args...)]: [wrap_unchecked(new T{args...})], [v]
    being the object the arguments construct. *)
Definition make_box (alloc : gmap N (cell T) -> option N) (this : nat) (v : T)
    : BM Single unit :=
  p <- new_ alloc (Object v) ;;
  wrap_unchecked this p.

(** [operator=(Box<Derived> &&rhs) requires IS_SINGLE]: the argument of
    [Box<Derived>::unwrap] is move-constructed from [rhs]; the cast keeps
    the address. *)
Definition move_assign_derived (this rhs : nat) : BM Single unit :=
  drop this ;;
  p <- unwrap rhs ;;
  set_obj this p.

(** [crab::release(Box<T> box) requires Box<T>::IS_ARRAY] *)
Definition release_array (arg : nat) : BM Array (N * Z) :=
  box <- local ;;
  Box_move Array box arg ;;
  r <- unwrap_array box ;;
  Box_dtor box ;;
  ret r.

(** [crab::make_boxxed_array<T>(count)]: [new T[count]()] holds [count]
    value-initialised elements, [dflt] each. *)
Definition make_boxxed_array (alloc : gmap N (cell T) -> option N) (dflt : T)
    (this : nat) (count : Z) : BM Array unit :=
  p <- new_ alloc (Block (replicate (Z.to_nat count) dflt)) ;;
  wrap_unchecked_array this p count.

(** [crab::make_boxxed_array<T>(count, from)]: the local [box] is the
    returned object; the loop assigns [T(from)] to [box[i]]. *)
Definition make_boxxed_array_from (fuel : nat) (w : Z)
    (alloc : gmap N (cell T) -> option N) (dflt : T)
    (this : nat) (count : Z) (from : T)
    : state T (Box Array) -> option (result (unit * state T (Box Array))) :=
  fun s =>
    match make_boxxed_array alloc dflt this count s with
    | Ok (_, s1) =>
        for_usize fuel w 0 count (fun i => r <- index this i ;; write r from) s1
    | Fault f => Some (Fault f)
    end.
End Methods.

(** Objects that carry their dynamic type, and a virtual call through an
    owner: [box->method()] dispatches on the class the object was created
    with, whatever the static type of the owner. *)
Record object (cls fields : Type) : Type :=
  mkObject { dyn_class : cls; obj_fields : fields }.
Arguments mkObject {cls fields} dyn_class obj_fields.
Arguments dyn_class {cls fields} o.
Arguments obj_fields {cls fields} o.

(** The form of [delete] that [drop] uses for each shape. *)
Definition shape_kind (sh : shape) : cell_kind :=
  match sh with
  | Single => KObject
  | Array => KBlock
  end.

(** Exclusive ownership of the scalar shape: every non-empty live owner
    holds the address of a live object, and no other live owner holds that
    address. *)
Definition owns {T} (st : state T (Box Single)) : Prop :=
  forall x bx, objs st !! x = Some bx -> obj bx <> nullptr ->
    (exists v, heap st !! obj bx = Some (Object v)) /\
    (forall y bx', objs st !! y = Some bx' -> obj bx' = obj bx -> y = x).

(** The operations a program can apply to scalar owners. *)
Inductive op (T : Type) : Type :=
  | OpMake (this : nat) (v : T)
  | OpFromValue (this : nat) (v : T)
  | OpWrapUnchecked (this : nat) (ref : N)
  | OpMove (this from : nat)
  | OpFromDerived (this from : nat)
  | OpMoveAssign (this rhs : nat)
  | OpMoveAssignDerived (this rhs : nat)
  | OpUnwrap (arg : nat)
  | OpRelease (arg : nat)
  | OpValue (this : nat)
  | OpDtor (this : nat).
Arguments OpMake {T} this v.
Arguments OpFromValue {T} this v.
Arguments OpWrapUnchecked {T} this ref.
Arguments OpMove {T} this from.
Arguments OpFromDerived {T} this from.
Arguments OpMoveAssign {T} this rhs.
Arguments OpMoveAssignDerived {T} this rhs.
Arguments OpUnwrap {T} arg.
Arguments OpRelease {T} arg.
Arguments OpValue {T} this.
Arguments OpDtor {T} this.

Definition run_op {T} (bld : build) (alloc : gmap N (cell T) -> option N) (o : op T)
    : M T (Box Single) unit :=
  match o with
  | OpMake this v => make_box alloc this v
  | OpFromValue this v => Box_from_value alloc this v
  | OpWrapUnchecked this ref => wrap_unchecked this ref
  | OpMove this from => Box_move Single this from
  | OpFromDerived this from => Box_from_derived bld this from
  | OpMoveAssign this rhs => move_assign this rhs
  | OpMoveAssignDerived this rhs => move_assign_derived bld this rhs
  | OpUnwrap arg => p <- unwrap bld arg ;; ret tt
  | OpRelease arg => p <- release bld arg ;; ret tt
  | OpValue this => v <- value bld this ;; ret tt
  | OpDtor this => Box_dtor this
  end.

(** What the callers owe: the address given to [wrap_unchecked] is that of a
    heap object no owner holds (or nullptr), as its comment asks; the two
    sides of an assignment are two objects. *)
Definition within_contract {T} (st : state T (Box Single)) (o : op T) : Prop :=
  match o with
  | OpWrapUnchecked _ ref =>
      ref = nullptr \/
      ((exists v, heap st !! ref = Some (Object v)) /\
       forall y bx, objs st !! y = Some bx -> obj bx <> ref)
  | OpMoveAssign this rhs => this <> rhs
  | OpMoveAssignDerived this rhs => this <> rhs
  | _ => True
  end.

(** The states a program reaches from the empty one. *)
Inductive reachable {T} (bld : build) (alloc : gmap N (cell T) -> option N)
  : state T (Box Single) -> Prop :=
  | reach_init : reachable bld alloc (mkState ∅ [] ∅)
  | reach_step s o s' :
      reachable bld alloc s ->
      within_contract s o ->
      run_op bld alloc o s = Ok (tt, s') ->
      reachable bld alloc s'.

Definition virtual_call {cls fields R} (bld : build) (vtable : cls -> fields -> R)
    (this : nat) : M (object cls fields) (Box Single) R :=
  p <- arrow bld this ;;
  r <- lvalue p 0 ;;
  o <- read r ;;
  ret (vtable (dyn_class o) (obj_fields o)).
End box.

(** ** rc.hpp *)
Module rc.

Record Rc : Type := mkRc { data : N; ref_count : N }.

Section Methods.
Context {T : Type}.
(** [usize] comes from preamble.hpp, which is not among the sources: its
    width is a parameter. *)
Variable usize_bits : Z.
Variable bld : build.
Variable alloc : gmap N (cell T) -> option N.

Abbreviation RM := (M T Rc).

Definition usize_wrap (n : Z) : Z := n mod 2 ^ usize_bits.

(** [*p += 1] and [*p -= 1] on a [usize] *)
Definition incr (p : N) : RM unit :=
  n <- load_count p ;;
  store_count p (usize_wrap (n + 1)).

Definition decr (p : N) : RM unit :=
  n <- load_count p ;;
  store_count p (usize_wrap (n - 1)).

Definition exchange_data (x : nat) (v : N) : RM N :=
  r <- load x ;;
  store x (mkRc v (ref_count r)) ;;
  ret (data r).

Definition exchange_ref_count (x : nat) (v : N) : RM N :=
  r <- load x ;;
  store x (mkRc (data r) v) ;;
  ret (ref_count r).

Definition set_data (x : nat) (v : N) : RM unit :=
  r <- load x ;;
  store x (mkRc v (ref_count r)).

Definition set_ref_count (x : nat) (v : N) : RM unit :=
  r <- load x ;;
  store x (mkRc (data r) v).

(** [explicit Rc(T *data, usize *ref_count)] *)
Definition Rc_from_parts (this : nat) (d rc : N) : RM unit :=
  begin_lifetime this (mkRc d rc) ;;
  debug_assert bld (negb (N.eqb d nullptr)) "Corrupted Rc<T>, data is nullptr" ;;
  debug_assert bld (negb (N.eqb rc nullptr)) "Corrupted Rc<T>, ref_count is nullptr" ;;
  incr rc.

(** [release()] *)
Definition release (this : nat) : RM unit :=
  r <- load this ;;
  if negb (N.eqb (ref_count r) nullptr) then
    debug_assert bld (negb (N.eqb (data r) nullptr))
      "Corrupted Rc<T>, missing data but kept reference count" ;;
    decr (ref_count r) ;;
    n <- load_count (ref_count r) ;;
    if Z.eqb n 0 then
      delete_ KObject (data r) ;;
      delete_ KCounter (ref_count r)
    else ret tt
  else
    debug_assert bld (N.eqb (data r) nullptr)
      "Corrupted Rc<T>, missing reference count but kept data".

(** [explicit Rc(T &&value) : Rc(new T{value}, new usize{0})]; the two
    allocations are taken in the order they are written. *)
Definition Rc_from_value (this : nat) (value : T) : RM unit :=
  d <- new_ alloc (Object value) ;;
  rc <- new_ alloc (Counter 0) ;;
  Rc_from_parts this d rc.

(** [from_owned_unchecked(box)]; the returned object is built in [this].
    (The call of the constructor converts [const T*] to [T*], so the member
    is well-formed for a const-qualified [T] only.) *)
Definition from_owned_unchecked (this : nat) (box : N) : RM unit :=
  rc <- new_ alloc (Counter 0) ;;
  Rc_from_parts this box rc.

(** [Rc(const Rc &from)] *)
Definition Rc_copy (this from : nat) : RM unit :=
  f <- load from ;;
  Rc_from_parts this (data f) (ref_count f).

(** [Rc(Rc &&from)] *)
Definition Rc_move (this from : nat) : RM unit :=
  d <- exchange_data from nullptr ;;
  rc <- exchange_ref_count from nullptr ;;
  Rc_from_parts this d rc ;;
  r <- load this ;;
  debug_assert bld (negb (N.eqb (data r) nullptr))
    "Corrupted Rc<T>, data is nullptr while moved" ;;
  debug_assert bld (negb (N.eqb (ref_count r) nullptr))
    "Corrupted Rc<T>, ref_count is nullptr while moved".

(** [operator=(const Rc &from)] *)
Definition copy_assign (this from : nat) : RM unit :=
  release this ;;
  f <- load from ;;
  set_data this (data f) ;;
  f <- load from ;;
  set_ref_count this (ref_count f) ;;
  r <- load this ;;
  debug_assert bld (negb (N.eqb (data r) nullptr))
    "Corrupted Rc<T>, data is nullptr while copied" ;;
  debug_assert bld (negb (N.eqb (ref_count r) nullptr))
    "Corrupted Rc<T>, ref_count is nullptr while copied".

(** [operator=(Rc &&from)] *)
Definition move_assign (this from : nat) : RM unit :=
  release this ;;
  d <- exchange_data from nullptr ;;
  set_data this d ;;
  rc <- exchange_ref_count from nullptr ;;
  set_ref_count this rc ;;
  r <- load this ;;
  debug_assert bld (negb (N.eqb (data r) nullptr))
    "Corrupted Rc<T>, data is nullptr while moved" ;;
  debug_assert bld (negb (N.eqb (ref_count r) nullptr))
    "Corrupted Rc<T>, ref_count is nullptr while moved".

(** [~Rc() { release(); }] *)
Definition Rc_dtor (this : nat) : RM unit :=
  release this ;;
  end_lifetime this.

(** [raw_ptr() const] *)
Definition raw_ptr (this : nat) : RM N :=
  r <- load this ;;
  debug_assert bld (negb (N.eqb (data r) nullptr)) "Corrupted Rc<T>, data is nullptr" ;;
  debug_assert bld (negb (N.eqb (ref_count r) nullptr)) "Corrupted Rc<T>, ref_count is nullptr" ;;
  ret (data r).

(** [operator const T &() const] and [as_ref()]: [*raw_ptr()] *)
Definition deref (this : nat) : RM place :=
  p <- raw_ptr this ;;
  lvalue p 0.

(** The operations a program can apply to shared owners. *)
Inductive op : Type :=
  | OpFromValue (this : nat) (value : T)
  | OpFromOwnedUnchecked (this : nat) (box : N)
  | OpCopy (this from : nat)
  | OpMove (this from : nat)
  | OpCopyAssign (this from : nat)
  | OpMoveAssign (this from : nat)
  | OpDeref (this : nat)
  | OpRawPtr (this : nat)
  | OpDtor (this : nat).

Definition run_op (o : op) : RM unit :=
  match o with
  | OpFromValue this value => Rc_from_value this value
  | OpFromOwnedUnchecked this box => from_owned_unchecked this box
  | OpCopy this from => Rc_copy this from
  | OpMove this from => Rc_move this from
  | OpCopyAssign this from => copy_assign this from
  | OpMoveAssign this from => move_assign this from
  | OpDeref this => r <- deref this ;; v <- read r ;; ret tt
  | OpRawPtr this => p <- raw_ptr this ;; ret tt
  | OpDtor this => Rc_dtor this
  end.

(** Construct in order, destroy in order. *)
Fixpoint copies (from : nat) (xs : list nat) : RM unit :=
  match xs with
  | [] => ret tt
  | x :: xs' => Rc_copy x from ;; copies from xs'
  end.

Fixpoint destroy_all (xs : list nat) : RM unit :=
  match xs with
  | [] => ret tt
  | x :: xs' => Rc_dtor x ;; destroy_all xs'
  end.
End Methods.

(** Paired validity of one handle, as the assertions of rc.hpp test it: the
    two addresses are null together or non-null together. *)
Definition paired (r : Rc) : Prop :=
  data r = nullptr <-> ref_count r = nullptr.

Definition paired_validity {T} (s : state T Rc) : Prop :=
  forall x r, objs s !! x = Some r -> paired r.

(** What the caller of the unchecked wrap attests: the address is that of
    a heap allocation, so not null.  Debug builds check it. *)
Definition within_contract {T} (bld : build) (o : @op T) : Prop :=
  match o with
  | OpFromOwnedUnchecked _ box => bld = Debug \/ box <> nullptr
  | _ => True
  end.

(** The states a program reaches from the empty one. *)
Inductive reachable {T} (w : Z) (bld : build) (alloc : gmap N (cell T) -> option N)
  : state T Rc -> Prop :=
  | reach_init : reachable w bld alloc (mkState ∅ [] ∅)
  | reach_step s o s' :
      reachable w bld alloc s ->
      within_contract bld o ->
      run_op w bld alloc o s = Ok (tt, s') ->
      reachable w bld alloc s'.

(** A handle that [release] accepts: cleared, or paired with a live payload
    and a live counter of at least 1. *)
Definition releasable {T} (w : Z) (st : state T Rc) (r : Rc) : Prop :=
  r = mkRc nullptr nullptr \/
  (data r <> nullptr /\ ref_count r <> nullptr /\ data r <> ref_count r /\
   exists n v, heap st !! ref_count r = Some (Counter n) /\
               heap st !! data r = Some (Object v) /\ 1 <= n < 2 ^ w).
End rc.

(** ** range.hpp, for the unsigned integral types [T] of [w] bits that are at
    least as wide as [int], so that [max + 1] and [++pos] are computed in
    [T] (the default is [usize]); [asserts] says that [<cassert>]'s [assert]
    is compiled in ([NDEBUG] is not defined). *)
Module range.

Record Range : Type := mkRange { min : Z; max : Z }.

Record Iterator : Type := mkIterator { pos : Z }.

(** [operator*] and [operator->] *)
Definition Iterator_deref (it : Iterator) : Z := pos it.

(** [operator==] and [operator!=] *)
Definition Iterator_eq (a b : Iterator) : bool := Z.eqb (pos a) (pos b).

Definition Iterator_neq (a b : Iterator) : bool := negb (Z.eqb (pos a) (pos b)).

Section Methods.
Variable w : Z.
Variable asserts : bool.

(** [operator++()]: [++pos] on an unsigned [T] *)
Definition Iterator_incr (it : Iterator) : Iterator :=
  mkIterator ((pos it + 1) mod 2 ^ w).

(** [operator++(int)]: the value before, and the iterator after *)
Definition Iterator_post_incr (it : Iterator) : Iterator * Iterator :=
  let tmp := it in
  (tmp, Iterator_incr it).

(** [Range(T min, T max)] *)
Definition Range_new (min max : Z) : result Range :=
  if asserts && negb (Z.leb min max)
  then Fault (AssertionFailure "Invalid Range, max cannot be greater than min")
  else Ok (mkRange min max).

Definition upper_bound (r : Range) : Z := max r.

Definition lower_bound (r : Range) : Z := min r.

Definition begin_ (r : Range) : Iterator := mkIterator (min r).

Definition end_ (r : Range) : Iterator := mkIterator (max r).

(** [crab::range(min, max)] and [crab::range(max)] *)
Definition range (min max : Z) : result Range := Range_new min max.

Definition range_to (max : Z) : result Range := Range_new 0 max.

(** [crab::range_inclusive(min, max)] and [crab::range_inclusive(max)]:
    [max + 1] is computed in [T]. *)
Definition range_inclusive (min max : Z) : result Range :=
  range min ((max + 1) mod 2 ^ w).

Definition range_inclusive_to (max : Z) : result Range :=
  range_to ((max + 1) mod 2 ^ w).

(** [for (T i : r) ...]: the values the loop variable takes, in order;
    [None] when the fuel runs out first. *)
Fixpoint for_each (fuel : nat) (it last : Iterator) : option (list Z) :=
  if Iterator_neq it last then
    match fuel with
    | O => None
    | S fuel' =>
        match for_each fuel' (Iterator_incr it) last with
        | Some vs => Some (Iterator_deref it :: vs)
        | None => None
        end
    end
  else Some [].

Definition range_for (fuel : nat) (r : Range) : option (list Z) :=
  for_each fuel (begin_ r) (end_ r).

(** [for (T i : make(..)) ...] for one of the four makers. *)
Definition loop_over (fuel : nat) (r : result Range) : result (option (list Z)) :=
  match r with
  | Ok r => Ok (range_for fuel r)
  | Fault f => Fault f
  end.
End Methods.
End range.

(** A concrete allocator: the least address that is neither null nor in use. *)
Definition first_fresh {T} (h : gmap N (cell T)) : option N :=
  Some (fresh ({[nullptr]} ∪ dom h)).

(** An allocator never returns null or an address in use. *)
Definition allocator {T} (alloc : gmap N (cell T) -> option N) : Prop :=
  forall h p, alloc h = Some p -> p <> nullptr /\ h !! p = None.

(** ** Specification vocabulary *)

(** Partial correctness: what holds of the result if the computation returns. *)
Definition wp {T H A} (m : M T H A) (Q : A -> state T H -> Prop) (s : state T H) : Prop :=
  forall a s', m s = Ok (a, s') -> Q a s'.

(** Computations that leave the handle objects alone. *)
Definition heap_only {T H A} (m : M T H A) : Prop :=
  forall s a s', m s = Ok (a, s') -> objs s' = objs s.

(** * Proofs *)

Section MonadLaws.
Context {T H : Type}.
Implicit Types s : state T H.

Lemma bind_Ok {A B} (m : M T H A) (k : A -> M T H B) s a s' :
  m s = Ok (a, s') -> bind m k s = k a s'.
Proof. unfold bind. intros ->. reflexivity. Qed.

Lemma bind_inv {A B} (m : M T H A) (k : A -> M T H B) s b s' :
  bind m k s = Ok (b, s') -> exists a s1, m s = Ok (a, s1) /\ k a s1 = Ok (b, s').
Proof.
  unfold bind. destruct (m s) as [[a s1]|f]; [eauto | discriminate].
Qed.

Lemma load_Ok x h s : objs s !! x = Some h -> load x s = Ok (h, s).
Proof. unfold load. intros ->. reflexivity. Qed.

Lemma begin_lifetime_Ok x h s :
  objs s !! x = None ->
  begin_lifetime x h s = Ok (tt, mkState (heap s) (freed s) (<[x := h]> (objs s))).
Proof. unfold begin_lifetime. intros ->. reflexivity. Qed.

Lemma end_lifetime_Ok x h s :
  objs s !! x = Some h ->
  end_lifetime x s = Ok (tt, mkState (heap s) (freed s) (delete x (objs s))).
Proof. unfold end_lifetime. intros ->. reflexivity. Qed.

End MonadLaws.

Section Wp.
Context {T H : Type}.
Implicit Types s : state T H.

Lemma wp_ret {A} (a : A) (Q : A -> state T H -> Prop) s : Q a s -> wp (ret a) Q s.
Proof. intros HQ a' s' [= <- <-]. exact HQ. Qed.

Lemma wp_bind {A B} (m : M T H A) (k : A -> M T H B) (Q : B -> state T H -> Prop) s :
  wp m (fun a s1 => wp (k a) Q s1) s -> wp (bind m k) Q s.
Proof.
  intros Hm b s' Hrun. unfold bind in Hrun.
  destruct (m s) as [[a s1]|f] eqn:E; [|discriminate].
  exact (Hm a s1 E b s' Hrun).
Qed.

Lemma wp_load x (Q : H -> state T H -> Prop) s :
  (forall h, objs s !! x = Some h -> Q h s) -> wp (load x) Q s.
Proof.
  intros HQ a s' Hrun. unfold load in Hrun.
  destruct (objs s !! x) eqn:E; simplify_eq. by apply HQ.
Qed.

Lemma wp_store x h (Q : unit -> state T H -> Prop) s :
  Q tt (mkState (heap s) (freed s) (<[x := h]> (objs s))) -> wp (store x h) Q s.
Proof.
  intros HQ a s' Hrun. unfold store in Hrun.
  destruct (objs s !! x) eqn:E; by simplify_eq.
Qed.

Lemma wp_begin_lifetime x h (Q : unit -> state T H -> Prop) s :
  Q tt (mkState (heap s) (freed s) (<[x := h]> (objs s))) -> wp (begin_lifetime x h) Q s.
Proof.
  intros HQ a s' Hrun. unfold begin_lifetime in Hrun.
  destruct (objs s !! x) eqn:E; by simplify_eq.
Qed.

Lemma wp_end_lifetime x (Q : unit -> state T H -> Prop) s :
  Q tt (mkState (heap s) (freed s) (delete x (objs s))) -> wp (end_lifetime x) Q s.
Proof.
  intros HQ a s' Hrun. unfold end_lifetime in Hrun.
  destruct (objs s !! x) eqn:E; by simplify_eq.
Qed.

Lemma wp_debug_assert bld cond msg (Q : unit -> state T H -> Prop) s :
  ((bld = Debug -> cond = true) -> Q tt s) -> wp (debug_assert bld cond msg) Q s.
Proof.
  intros HQ a s' Hrun. unfold debug_assert, ret, fail in Hrun.
  destruct bld, cond; simplify_eq; apply HQ; done.
Qed.

Lemma wp_heap_only {A} (m : M T H A) (Q : A -> state T H -> Prop) s :
  @heap_only T H _ m ->
  (forall a hp fr, Q a (mkState hp fr (objs s))) -> wp m Q s.
Proof.
  intros Hm HQ a s' Hrun. specialize (Hm _ _ _ Hrun).
  destruct s' as [hp fr o]; simpl in *; subst. apply HQ.
Qed.

Lemma heap_only_ret {A} (a : A) : @heap_only T H _ (ret a).
Proof. by intros s a' s' [= <- <-]. Qed.

Lemma heap_only_bind {A B} (m : M T H A) (k : A -> M T H B) :
  @heap_only T H _ m -> (forall a, @heap_only T H _ (k a)) -> @heap_only T H _ (bind m k).
Proof.
  intros Hm Hk s b s' Hrun. unfold bind in Hrun.
  destruct (m s) as [[a s1]|f] eqn:E; [|discriminate].
  rewrite (Hk _ _ _ _ Hrun). eauto.
Qed.

Lemma heap_only_load x : @heap_only T H _ (load x).
Proof. intros s a s' Hrun. unfold load in Hrun. by destruct (objs s !! x); simplify_eq. Qed.

Lemma heap_only_debug_assert bld cond msg : @heap_only T H _ (debug_assert bld cond msg).
Proof.
  intros s a s' Hrun. unfold debug_assert, ret, fail in Hrun.
  by destruct bld, cond; simplify_eq.
Qed.

Lemma heap_only_load_count p : @heap_only T H _ (load_count p).
Proof.
  intros s a s' Hrun. unfold load_count in Hrun.
  repeat case_match; by simplify_eq.
Qed.

Lemma heap_only_store_count p n : @heap_only T H _ (store_count p n).
Proof.
  intros s a s' Hrun. unfold store_count in Hrun.
  repeat case_match; by simplify_eq.
Qed.

Lemma heap_only_delete k p : @heap_only T H _ (delete_ k p).
Proof.
  intros s a s' Hrun. unfold delete_ in Hrun.
  repeat case_match; by simplify_eq.
Qed.

Lemma heap_only_lvalue p i : @heap_only T H _ (lvalue p i).
Proof.
  intros s a s' Hrun. unfold lvalue in Hrun.
  repeat case_match; by simplify_eq.
Qed.

Lemma heap_only_read r : @heap_only T H _ (read r).
Proof.
  intros s a s' Hrun. unfold read in Hrun.
  repeat case_match; by simplify_eq.
Qed.

Lemma wp_new alloc c (Q : N -> state T H -> Prop) s :
  allocator alloc ->
  (forall p hp, p <> nullptr -> Q p (mkState hp (freed s) (objs s))) ->
  wp (new_ alloc c) Q s.
Proof.
  intros Halloc HQ a s' Hrun. unfold new_ in Hrun.
  destruct (alloc (heap s)) as [p|] eqn:E; simplify_eq.
  apply HQ. by destruct (Halloc _ _ E).
Qed.
End Wp.

Create HintDb heap_only.
#[export] Hint Resolve heap_only_ret heap_only_load heap_only_debug_assert
  heap_only_load_count heap_only_store_count heap_only_delete heap_only_lvalue
  heap_only_read : heap_only.

Ltac heap_only_tac :=
  repeat first
    [ apply heap_only_bind; [| intros ?]
    | solve [auto with heap_only]
    | match goal with |- heap_only (if ?b then _ else _) => destruct b end ].

Ltac unfold_mem :=
  unfold if_DEBUG, debug_assert in *;
  unfold bind, ret, fail, load, store, begin_lifetime, end_lifetime, local,
    load_count, store_count, delete_, new_ in *.
Ltac use_eqs :=
  repeat match goal with
         | H : ?b = true |- context [?b] => rewrite H
         | H : ?b = false |- context [?b] => rewrite H
         | H : ?m !! ?k = _ |- context [?m !! ?k] => rewrite H
         | H : ?p <> ?q |- context [decide (?p = ?q)] => rewrite (decide_False (P := p = q)) by exact H
         end.
Ltac crunch :=
  simpl;
  repeat (progress (use_eqs; rewrite ?lookup_insert_eq, ?insert_insert_eq; simpl)
          || (rewrite lookup_insert_ne by done; simpl)).


Lemma first_fresh_allocator {T} : allocator (@first_fresh T).
Proof.
  intros h p [= <-]. pose proof (is_fresh ({[nullptr]} ∪ dom h)) as Hf. split.
  - intros E. apply Hf. rewrite E. set_solver.
  - apply not_elem_of_dom. set_solver.
Qed.

Lemma local_fresh {H} (o : gmap nat H) : o !! fresh (dom o) = None.
Proof. apply not_elem_of_dom, is_fresh. Qed.

Lemma eqb_nullptr p : p <> nullptr -> (p =? nullptr)%N = false.
Proof. apply N.eqb_neq. Qed.

(** ** The exclusive owner *)
Module BoxSpec.
Import box.

Ltac unfold_box :=
unfold virtual_call, value, release, unwrap, unwrap_array, move_assign, move_assign_array,
  Box_from_derived, __release_for_derived, Box_move, wrap_unchecked, wrap_unchecked_array,
  index, deref, arrow, as_ptr, raw_ptr, Box_dtor, drop, Box_from_ptr, Box_from_ptr_len,
  set_obj, set_size, exchange_obj, exchange_size, box.length in *.
Ltac run := unfold_box; unfold_mem; simpl; repeat (simplify_map_eq; simpl).

Section BoxFacts.
Context {T : Type}.

Lemma Box_move_Ok sh (a b : nat) (st : state T (Box sh)) bx :
  objs st !! a = Some bx -> objs st !! b = None ->
  Box_move sh b a st =
  Ok (tt, mkState (heap st) (freed st)
            (<[b := bx]> (<[a := mkBox sh nullptr (DEFAULT_SIZE sh)]> (objs st)))).
Proof.
  intros Ha Hb. destruct bx as [p n]. run.
  by rewrite insert_insert_eq.
Qed.

(** What [*x] yields depends on the handle value and the heap only. *)
Lemma value_frame bld sh (x y : nat) (s1 s2 : state T (Box sh)) bx v :
  objs s1 !! x = Some bx -> objs s2 !! y = Some bx -> heap s2 = heap s1 ->
  value bld x s1 = Ok (v, s1) -> value bld y s2 = Ok (v, s2).
Proof.
  destruct s1 as [h1 f1 o1], s2 as [h2 f2 o2]. simpl.
  intros Hx Hy ->. unfold value, deref, as_ptr, raw_ptr, lvalue, read.
  unfold_mem. simpl. rewrite Hx, Hy. simpl.
  destruct bld; simpl; destruct (N.eqb (obj bx) nullptr); simpl; try done;
  destruct (decide (obj bx = nullptr)); simpl; try done;
  destruct (h1 !! obj bx) as [[v0|vs|n0]|] eqn:E; simpl; rewrite ?E; simpl; try done;
  repeat (case_decide; simpl; rewrite ?E; simpl; try done);
  try (destruct (vs !! Z.to_nat 0); simpl; try done);
  by intros [= ->].
Qed.

Lemma value_moved sh (x : nat) (s : state T (Box sh)) bx :
  objs s !! x = Some bx -> obj bx = nullptr ->
  value Debug x s = Fault (AssertionFailure "Invalid Use of Moved Box<T>.").
Proof. intros Hx Hp. run. rewrite Hp. reflexivity. Qed.

Lemma drop_null sh (x : nat) (s : state T (Box sh)) bx :
  objs s !! x = Some bx -> obj bx = nullptr -> drop x s = Ok (tt, s).
Proof. intros Hx Hp. run. rewrite Hp. by destruct sh. Qed.

Lemma drop_Ok sh (x : nat) (s : state T (Box sh)) bx c :
  objs s !! x = Some bx -> obj bx <> nullptr ->
  heap s !! obj bx = Some c -> kind_of c = shape_kind sh ->
  drop x s = Ok (tt, mkState (delete (obj bx) (heap s)) (obj bx :: freed s) (objs s)).
Proof.
  intros Hx Hp Hc Hk. run.
  destruct sh; simpl in *; unfold delete_; rewrite decide_False by done;
  rewrite Hc; by rewrite decide_True.
Qed.
End BoxFacts.

(** C4.  Move-construction [Box b(std::move(a))] from a non-empty owner [a],
    of either shape: it returns, the heap is untouched, [a] is left empty
    and [b] holds what [a] held.  Dereferencing [a] afterwards stops at the
    assertion of [raw_ptr] in a debug build; dereferencing [b] yields, in
    either build, the value that dereferencing [a] yielded before the move. *)
Theorem moved_from_Box_is_empty {T} sh (a b : nat) (st : state T (Box sh)) bx :
  objs st !! a = Some bx -> obj bx <> nullptr -> objs st !! b = None ->
  exists st',
    Box_move sh b a st = Ok (tt, st') /\
    heap st' = heap st /\
    obj <$> objs st' !! a = Some nullptr /\
    objs st' !! b = Some bx /\
    value Debug a st' = Fault (AssertionFailure "Invalid Use of Moved Box<T>.") /\
    (forall bld v, value bld a st = Ok (v, st) -> value bld b st' = Ok (v, st')).
Proof.
  intros Ha Hp Hb.
  assert (a <> b) by congruence.
  eexists. split; [by apply Box_move_Ok|]. simpl.
  split; [done|]. split; [by simplify_map_eq|]. split; [by simplify_map_eq|].
  split.
  - eapply value_moved; simpl; [by simplify_map_eq | done].
  - intros bld v Hv. eapply value_frame; [exact Ha | | | exact Hv]; simpl; by simplify_map_eq.
Qed.

Lemma moved_from_Box_is_empty_witness :
  exists st',
    Box_move Single 1 0 (mkState {[ 5%N := Object 42%nat ]} [] {[ 0%nat := mkBox Single 5%N tt ]})
      = Ok (tt, st') /\
    value Debug 0 st' = Fault (AssertionFailure "Invalid Use of Moved Box<T>.") /\
    value Debug 1 st' = Ok (42%nat, st').
Proof.
  destruct (moved_from_Box_is_empty Single 0 1
              (mkState {[ 5%N := Object 42%nat ]} [] {[ 0%nat := mkBox Single 5%N tt ]})
              (mkBox Single 5%N tt))
    as (st' & Hrun & _ & _ & _ & Ha & Hb); [reflexivity | discriminate | reflexivity |].
  exists st'. split; [exact Hrun|]. split; [exact Ha|].
  apply Hb. vm_compute. reflexivity.
Defined.

(** C3.  Self-move-assignment [b = std::move(b)] of a non-empty scalar owner
    holding [v] at address 5.  [operator=(Box&&)] runs [drop()] before it
    takes the pointer of [rhs], which is [this]: the payload is deallocated,
    the owner keeps the dangling address, reading through it is a use after
    free and its destructor frees the address a second time. *)
Theorem self_move_assign_frees_payload {T} (bld : build) (v : T) :
  let st := mkState {[ 5%N := Object v ]} [] {[ 0%nat := mkBox Single 5%N tt ]} in
  let st' := mkState (T:=T) ∅ [5%N] {[ 0%nat := mkBox Single 5%N tt ]} in
  value bld 0 st = Ok (v, st) /\
  move_assign 0 0 st = Ok (tt, st') /\
  value bld 0 st' = Fault (UndefinedBehaviour UseAfterFree) /\
  Box_dtor 0 st' = Fault (UndefinedBehaviour InvalidFree).
Proof. destruct bld; vm_compute; done. Qed.

(** C6.  Indexing an array owner that holds a block of [length vs] elements.
    Every index below the element count returns, in either build, the place
    of that element, and reading it gives the element; every index at or
    above the element count stops at "Index out of Bounds" in a debug
    build. *)
Theorem index_checks_bounds {T} (this : nat) (st : state T (Box Array)) (p : N) (vs : list T) (i : Z) :
  objs st !! this = Some (mkBox Array p (Z.of_nat (Datatypes.length vs))) ->
  p <> nullptr ->
  heap st !! p = Some (Block vs) ->
  0 <= i ->
  (i < Z.of_nat (Datatypes.length vs) ->
     forall bld, exists v,
       vs !! Z.to_nat i = Some v /\
       index bld this i st = Ok (mkPlace p i, st) /\
       read (mkPlace p i) st = Ok (v, st)) /\
  (Z.of_nat (Datatypes.length vs) <= i ->
     index Debug this i st = Fault (AssertionFailure "Index out of Bounds")).
Proof.
  intros Hthis Hp Hh Hi. split.
  - intros Hlt bld.
    destruct (lookup_lt_is_Some_2 vs (Z.to_nat i)) as [v Hv]; [lia|].
    exists v. split; [done|].
    assert (Hne : (p =? nullptr)%N = false) by by apply N.eqb_neq.
    assert (Hltb : (i <? Z.of_nat (Datatypes.length vs)) = true) by by apply Z.ltb_lt.
    split.
    + destruct st as [h f o]; simpl in *.
      unfold index, as_ptr, raw_ptr, lvalue. unfold_mem. simpl. rewrite Hthis. simpl.
      rewrite Hltb. destruct bld; simpl; rewrite ?Hthis; simpl; rewrite ?Hne; simpl;
        rewrite decide_False by done; rewrite Hh, decide_True by lia; done.
    + unfold read. simpl. rewrite Hh, Hv, decide_True by lia. done.
  - intros Hge.
    assert (Hltb : (i <? Z.of_nat (Datatypes.length vs)) = false) by by apply Z.ltb_ge.
    destruct st as [h f o]; simpl in *.
    unfold index. unfold_mem. simpl. rewrite Hthis. simpl. by rewrite Hltb.
Qed.

Lemma index_checks_bounds_witness :
  let st := mkState {[ 5%N := Block [10; 20; 30]%nat ]} [] {[ 0%nat := mkBox Array 5%N 3 ]} in
  index Debug 0 2 st = Ok (mkPlace 5 2, st) /\
  read (mkPlace 5 2) st = Ok (30%nat, st) /\
  index Debug 0 3 st = Fault (AssertionFailure "Index out of Bounds").
Proof.
  intros st.
  pose proof (index_checks_bounds 0%nat st 5%N [10; 20; 30]%nat 2
                eq_refl ltac:(discriminate) eq_refl ltac:(lia)) as [Hin _].
  pose proof (index_checks_bounds 0%nat st 5%N [10; 20; 30]%nat 3
                eq_refl ltac:(discriminate) eq_refl ltac:(lia)) as [_ Hout].
  destruct (Hin ltac:(simpl; lia) Debug) as (v & Hv & Hidx & Hread).
  injection Hv as <-.
  split; [exact Hidx|]. split; [exact Hread|].
  apply Hout. simpl. lia.
Defined.

Section BoxRelease.
Context {T : Type}.
Implicit Types st : state T (Box Single).

Lemma unwrap_Ok bld (a : nat) st p :
  objs st !! a = Some (mkBox Single p tt) -> p <> nullptr ->
  unwrap bld a st =
  Ok (p, mkState (heap st) (freed st) (<[a := mkBox Single nullptr tt]> (objs st))).
Proof.
  intros Ha Hp. destruct st as [h f o]; simpl in *.
  pose proof (local_fresh o) as Hx.
  assert (Hne : (p =? nullptr)%N = false) by by apply N.eqb_neq.
  assert (a <> fresh (dom o)) by congruence.
  unfold unwrap, Box_dtor, drop, Box_move, raw_ptr, set_obj, exchange_obj, exchange_size.
  unfold_mem. destruct bld; crunch.
  all: rewrite delete_insert_eq, delete_id; [done|]; by rewrite lookup_insert_ne.
Qed.

Lemma release_Ok bld (a : nat) st p :
  objs st !! a = Some (mkBox Single p tt) -> p <> nullptr ->
  release bld a st =
  Ok (p, mkState (heap st) (freed st) (<[a := mkBox Single nullptr tt]> (objs st))).
Proof.
  intros Ha Hp. destruct st as [h f o]; simpl in *.
  pose proof (local_fresh o) as Hx.
  assert (a <> fresh (dom o)) by congruence.
  unfold release.
  unfold bind at 1. unfold local at 1. simpl.
  unfold bind at 1. erewrite Box_move_Ok by (simpl; eauto). simpl.
  unfold bind at 1. erewrite unwrap_Ok; [| simpl; apply lookup_insert_eq | done]. simpl.
  rewrite insert_insert_eq.
  unfold Box_dtor, drop. unfold_mem. simpl. rewrite lookup_insert_eq. simpl.
  rewrite lookup_insert_eq. rewrite delete_insert_eq, delete_id; [done|].
  by rewrite lookup_insert_ne.
Qed.
End BoxRelease.

(** C7.  Round trip.  [Box::unwrap] and [crab::release] on a non-empty scalar
    owner [a] return its address [p] without touching the heap, and give
    the ownership up: [a] is left empty and no other handle changes.
    [wrap_unchecked(p)] then builds an owner [c] with the same handle value
    as [a] had.  Dereferencing [c] gives the value [a] gave, and destroying
    [c] frees exactly what destroying [a] would have freed: address [p],
    once.  The emptied [a] no longer dereferences in a debug build, and its
    destructor frees nothing: once it is gone the state is the state before
    the round trip, with [c] where [a] was. *)
Theorem release_then_wrap_is_identity {T} (bld : build) (a c : nat) (st : state T (Box Single))
    (p : N) (v : T) :
  objs st !! a = Some (mkBox Single p tt) ->
  p <> nullptr ->
  heap st !! p = Some (Object v) ->
  objs st !! c = None ->
  forall rel, rel = unwrap bld \/ rel = release bld ->
  exists st1 st2,
    rel a st = Ok (p, st1) /\
    heap st1 = heap st /\ freed st1 = freed st /\
    wrap_unchecked c p st1 = Ok (tt, st2) /\
    heap st2 = heap st /\ freed st2 = freed st /\
    objs st2 !! c = objs st !! a /\
    value bld a st = Ok (v, st) /\
    value bld c st2 = Ok (v, st2) /\
    (exists s, Box_dtor a st = Ok (tt, s) /\
               heap s = delete p (heap st) /\ freed s = p :: freed st) /\
    (exists s, Box_dtor c st2 = Ok (tt, s) /\
               heap s = delete p (heap st) /\ freed s = p :: freed st) /\
    objs st1 = <[a := mkBox Single nullptr tt]> (objs st) /\
    objs st2 = <[c := mkBox Single p tt]> (<[a := mkBox Single nullptr tt]> (objs st)) /\
    value Debug a st2 = Fault (AssertionFailure "Invalid Use of Moved Box<T>.") /\
    Box_dtor a st2 =
      Ok (tt, mkState (heap st) (freed st) (<[c := mkBox Single p tt]> (delete a (objs st)))).
Proof.
  intros Ha Hp Hh Hc rel Hrel.
  assert (a <> c) by congruence.
  assert (Hne : (p =? nullptr)%N = false) by by apply N.eqb_neq.
  eexists _, _. split.
  { destruct Hrel as [-> | ->]; [by apply unwrap_Ok | by apply release_Ok]. }
  simpl. split; [done|]. split; [done|]. split.
  { unfold wrap_unchecked, Box_from_ptr. apply begin_lifetime_Ok. simpl.
    by rewrite lookup_insert_ne. }
  simpl. split; [done|]. split; [done|]. split.
  { by rewrite lookup_insert_eq. }
  assert (Hva : value bld a st = Ok (v, st)).
  { destruct st as [h f o]; simpl in *. unfold value, deref, as_ptr, raw_ptr, lvalue, read.
    unfold_mem. destruct bld; crunch; done. }
  split; [exact Hva|]. split.
  { eapply value_frame; [exact Ha | | | exact Hva]; simpl; [by rewrite lookup_insert_eq | done]. }
  split.
  { eexists. split.
    - unfold Box_dtor. erewrite bind_Ok; [| by eapply (drop_Ok Single); eauto].
      eapply end_lifetime_Ok. simpl. eauto.
    - done. }
  split.
  { eexists. split.
    - unfold Box_dtor. erewrite bind_Ok;
        [| eapply (drop_Ok Single); simpl; [apply lookup_insert_eq | done | exact Hh | done]].
      eapply end_lifetime_Ok. simpl. apply lookup_insert_eq.
    - done. }
  assert (Hemp : forall o : gmap nat (Box Single),
            <[c := mkBox Single p tt]> (<[a := mkBox Single nullptr tt]> o) !! a =
            Some (mkBox Single nullptr tt)).
  { intros o. rewrite lookup_insert_ne by done. apply lookup_insert_eq. }
  split; [done|]. split; [done|]. split.
  - eapply value_moved; simpl; [apply Hemp | done].
  - unfold Box_dtor. erewrite bind_Ok; [| eapply drop_null; simpl; [apply Hemp | done]].
    erewrite end_lifetime_Ok; [| simpl; apply Hemp]. simpl. do 3 f_equal.
    rewrite delete_insert_ne by done. by rewrite delete_insert_eq.
Qed.

Lemma release_then_wrap_is_identity_witness :
  let st := mkState {[ 5%N := Object 42%nat ]} [] {[ 0%nat := mkBox Single 5%N tt ]} in
  exists st1 st2,
    release Debug 0 st = Ok (5%N, st1) /\
    wrap_unchecked 1 5%N st1 = Ok (tt, st2) /\
    value Debug 1 st2 = Ok (42%nat, st2).
Proof.
  intros st.
  destruct (release_then_wrap_is_identity Debug 0 1 st 5%N 42%nat
              eq_refl ltac:(discriminate) eq_refl eq_refl (release Debug) (or_intror eq_refl))
    as (st1 & st2 & Hrel & _ & _ & Hwrap & _ & _ & _ & _ & Hv & _).
  exists st1, st2. auto.
Defined.

(** C10.  Destroying an empty owner deallocates nothing: [delete] of nullptr
    does nothing.  So after [Box b(std::move(a))] the destructor of [a]
    leaves heap and deallocation log as they were before the move, and the
    later destructor of [b] frees the payload, once. *)
Theorem empty_Box_dtor_frees_nothing {T} sh (a b : nat) (st : state T (Box sh)) bx :
  objs st !! a = Some bx -> objs st !! b = None ->
  (obj bx = nullptr ->
     Box_dtor a st = Ok (tt, mkState (heap st) (freed st) (delete a (objs st)))) /\
  (exists st1 st2,
     Box_move sh b a st = Ok (tt, st1) /\
     Box_dtor a st1 = Ok (tt, st2) /\
     heap st2 = heap st /\ freed st2 = freed st /\
     objs st2 !! a = None /\ objs st2 !! b = Some bx /\
     forall c, obj bx <> nullptr -> heap st !! obj bx = Some c -> kind_of c = shape_kind sh ->
       exists st3, Box_dtor b st2 = Ok (tt, st3) /\
                   heap st3 = delete (obj bx) (heap st) /\
                   freed st3 = obj bx :: freed st).
Proof.
  intros Ha Hb. assert (a <> b) by congruence. split.
  - intros Hp. unfold Box_dtor. erewrite bind_Ok by (by eapply drop_null).
    by eapply end_lifetime_Ok.
  - eexists _, _. split; [by apply Box_move_Ok|]. split.
    { unfold Box_dtor. erewrite bind_Ok;
        [| eapply drop_null; simpl; [rewrite lookup_insert_ne by done; apply lookup_insert_eq | done]].
      eapply end_lifetime_Ok. simpl. rewrite lookup_insert_ne by done. apply lookup_insert_eq. }
    simpl. split; [done|]. split; [done|]. split; [apply lookup_delete_eq|]. split.
    { rewrite lookup_delete_ne by done. apply lookup_insert_eq. }
    intros c Hp Hc Hk. eexists. split.
    + unfold Box_dtor. erewrite bind_Ok;
        [| eapply drop_Ok; simpl;
           [rewrite lookup_delete_ne by done; apply lookup_insert_eq | done | exact Hc | done]].
      eapply end_lifetime_Ok. simpl. rewrite lookup_delete_ne by done. apply lookup_insert_eq.
    + done.
Qed.

Lemma empty_Box_dtor_frees_nothing_witness :
  let st := mkState {[ 5%N := Object 42%nat ]} [] {[ 0%nat := mkBox Single 5%N tt ]} in
  exists st1 st2,
    Box_move Single 1 0 st = Ok (tt, st1) /\
    Box_dtor 0 st1 = Ok (tt, st2) /\
    heap st2 = heap st /\ freed st2 = [].
Proof.
  intros st.
  destruct (empty_Box_dtor_frees_nothing Single 0 1 st (mkBox Single 5%N tt) eq_refl eq_refl)
    as (_ & st1 & st2 & Hm & Hd & Hh & Hf & _).
  exists st1, st2. auto.
Defined.

Section Upcast.
Context {cls fields R : Type}.
Variable vtable : cls -> fields -> R.
Implicit Types st : state (object cls fields) (Box Single).

Lemma virtual_call_value bld (x : nat) st :
  virtual_call bld vtable x st =
  (o <- value bld x ;; ret (vtable (dyn_class o) (obj_fields o))) st.
Proof.
  unfold virtual_call, value, deref, arrow, bind.
  destruct (as_ptr bld x st) as [[p s1]|]; [|done].
  by destruct (lvalue p 0 s1) as [[r s2]|].
Qed.

Lemma virtual_call_frame bld (x y : nat) st1 st2 bx r :
  objs st1 !! x = Some bx -> objs st2 !! y = Some bx -> heap st2 = heap st1 ->
  virtual_call bld vtable x st1 = Ok (r, st1) ->
  virtual_call bld vtable y st2 = Ok (r, st2).
Proof.
  intros Hx Hy Hh. rewrite !virtual_call_value. intros Hv.
  apply bind_inv in Hv as (o & s & Hv & Hr). unfold ret in Hr. simplify_eq.
  erewrite bind_Ok; [| by eapply (value_frame _ _ x y st1 st2)]. reflexivity.
Qed.
End Upcast.

(** C8.  Upcast-move-construction [Box<T> this(std::move(from))] from an owner
    of a derived type.  With a non-empty source it is
    [__release_for_derived] followed by a wrap of the same address: the heap
    and the deallocation log do not change, the source is left empty, the
    new owner holds the address, and a virtual call through it dispatches as
    it did through the source.  With an empty source a debug build stops at
    "Invalid Box, moved from invalid box.". *)
Theorem upcast_move_transfers_allocation {cls fields R} (vtable : cls -> fields -> R)
    (this from : nat) (st : state (object cls fields) (Box Single)) (p : N) :
  objs st !! from = Some (mkBox Single p tt) ->
  objs st !! this = None ->
  (p <> nullptr ->
     forall bld, exists st1 st',
       __release_for_derived from st = Ok (p, st1) /\
       wrap_unchecked this p st1 = Ok (tt, st') /\
       Box_from_derived bld this from st = Ok (tt, st') /\
       heap st' = heap st /\ freed st' = freed st /\
       objs st' !! this = Some (mkBox Single p tt) /\
       objs st' !! from = Some (mkBox Single nullptr tt) /\
       (forall o, value bld from st = Ok (o, st) -> value bld this st' = Ok (o, st')) /\
       (forall r, virtual_call bld vtable from st = Ok (r, st) ->
                  virtual_call bld vtable this st' = Ok (r, st'))) /\
  (p = nullptr ->
     Box_from_derived Debug this from st =
       Fault (AssertionFailure "Invalid Box, moved from invalid box.")).
Proof.
  intros Hfrom Hthis. assert (from <> this) by congruence.
  destruct st as [h f o]; simpl in *. split.
  - intros Hp bld.
    assert (Hne : (p =? nullptr)%N = false) by by apply N.eqb_neq.
    eexists _, _. split; [| split; [| split]].
    + unfold __release_for_derived, exchange_obj. unfold_mem. crunch. reflexivity.
    + unfold wrap_unchecked, Box_from_ptr. unfold_mem. crunch. reflexivity.
    + unfold Box_from_derived, __release_for_derived, Box_from_ptr, exchange_obj.
      unfold_mem. destruct bld; crunch; reflexivity.
    + simpl. split; [done|]. split; [done|]. split; [apply lookup_insert_eq|]. split.
      { rewrite lookup_insert_ne by done. apply lookup_insert_eq. }
      split.
      * intros v Hv.
        eapply (value_frame _ _ from this (mkState h f o)); [exact Hfrom | | | exact Hv]; simpl;
          [apply lookup_insert_eq | done].
      * intros r Hr.
        eapply (virtual_call_frame _ _ from this (mkState h f o));
          [exact Hfrom | | | exact Hr]; simpl; [apply lookup_insert_eq | done].
  - intros ->. unfold Box_from_derived, __release_for_derived, Box_from_ptr, exchange_obj.
    unfold_mem. crunch. reflexivity.
Qed.

Lemma upcast_move_transfers_allocation_witness :
  let vt := fun (c : bool) (x : nat) => if c then (x + 1)%nat else x in
  let st := mkState {[ 5%N := Object (mkObject true 41%nat) ]} [] {[ 0%nat := mkBox Single 5%N tt ]} in
  exists st',
    Box_from_derived Debug 1 0 st = Ok (tt, st') /\
    heap st' = heap st /\
    virtual_call Debug vt 1 st' = Ok (42%nat, st').
Proof.
  intros vt st.
  destruct (upcast_move_transfers_allocation vt 1 0 st 5%N eq_refl eq_refl) as [Hok _].
  destruct (Hok ltac:(discriminate) Debug)
    as (st1 & st' & _ & _ & Hrun & Hh & _ & _ & _ & _ & Hcall).
  exists st'. split; [exact Hrun|]. split; [exact Hh|].
  apply Hcall. vm_compute. reflexivity.
Defined.
End BoxSpec.

(** ** The shared owner *)
Module RcSpec.
Import rc.

Section RcInvariant.
Context {T : Type}.
Variable w : Z.
Variable bld : build.
Variable alloc : gmap N (cell T) -> option N.
Hypothesis alloc_ok : allocator alloc.
Implicit Types s : state T Rc.

Lemma heap_only_incr p : heap_only (T:=T) (H:=Rc) (incr w p).
Proof. unfold incr. heap_only_tac. Qed.

Lemma heap_only_decr p : heap_only (T:=T) (H:=Rc) (decr w p).
Proof. unfold decr. heap_only_tac. Qed.

Lemma heap_only_release x : heap_only (T:=T) (release w bld x).
Proof.
  unfold release. apply heap_only_bind; [auto with heap_only|]. intros r.
  destruct (negb _); [|auto with heap_only].
  apply heap_only_bind; [auto with heap_only|]. intros _.
  apply heap_only_bind; [apply heap_only_decr|]. intros _.
  apply heap_only_bind; [auto with heap_only|]. intros n.
  destruct (Z.eqb n 0); heap_only_tac.
Qed.

Lemma heap_only_raw_ptr x : heap_only (T:=T) (raw_ptr bld x).
Proof. unfold raw_ptr. heap_only_tac. Qed.

Lemma paired_insert s x r (hp : gmap N (cell T)) fr :
  paired_validity s -> paired r ->
  paired_validity (mkState hp fr (<[x := r]> (objs s))).
Proof.
  intros Hs Hr y r'. simpl. rewrite lookup_insert. case_decide; [by intros [= <-]|].
  apply Hs.
Qed.

Lemma paired_delete s x (hp : gmap N (cell T)) fr :
  paired_validity s -> paired_validity (mkState hp fr (delete x (objs s))).
Proof.
  intros Hs y r'. simpl. rewrite lookup_delete. case_decide; [done|]. apply Hs.
Qed.

Lemma paired_heap s (hp : gmap N (cell T)) fr :
  paired_validity s -> paired_validity (mkState hp fr (objs s)).
Proof. intros Hs y r'. apply Hs. Qed.

Lemma paired_null : paired (mkRc nullptr nullptr).
Proof. done. Qed.

Lemma paired_nonnull d rc : d <> nullptr -> rc <> nullptr -> paired (mkRc d rc).
Proof. unfold paired. simpl. tauto. Qed.

Lemma wp_Rc_from_parts x d rc (Q : unit -> state T Rc -> Prop) s :
  (forall hp fr, Q tt (mkState hp fr (<[x := mkRc d rc]> (objs s)))) ->
  wp (Rc_from_parts w bld x d rc) Q s.
Proof.
  intros HQ. unfold Rc_from_parts.
  apply wp_bind, wp_begin_lifetime.
  apply wp_heap_only; [|intros [] hp fr; apply HQ].
  heap_only_tac.
Qed.

Lemma wp_release x (Q : unit -> state T Rc -> Prop) s :
  (forall hp fr, Q tt (mkState hp fr (objs s))) -> wp (release w bld x) Q s.
Proof.
  intros HQ. apply wp_heap_only; [apply heap_only_release|]. intros [] hp fr. apply HQ.
Qed.

Lemma wp_asserts c1 m1 c2 m2 (Q : unit -> state T Rc -> Prop) s :
  Q tt s -> wp (debug_assert bld c1 m1 ;; debug_assert bld c2 m2) Q s.
Proof. intros HQ. apply wp_bind, wp_debug_assert. intros _. by apply wp_debug_assert. Qed.

(** Every operation keeps the pairing, whenever it returns. *)
Lemma run_op_paired o s s' :
  within_contract bld o -> paired_validity s ->
  run_op w bld alloc o s = Ok (tt, s') -> paired_validity s'.
Proof.
  intros Hc Hs Hrun.
  cut (wp (run_op w bld alloc o) (fun _ s1 => paired_validity s1) s);
  [intros Hwp; exact (Hwp tt s' Hrun)|].
  clear Hrun s'.
  destruct o as [this v|this box|this from|this from|this from|this from|this|this|this]; simpl.
  - (* Rc(T&&) *)
  unfold Rc_from_value. apply wp_bind, wp_new; [done|]. intros d hp Hd.
  apply wp_bind, wp_new; [done|]. intros rc hp' Hrc.
  apply wp_Rc_from_parts. intros hp'' fr. simpl.
  apply paired_insert; [assumption|]. by apply paired_nonnull.
  - (* from_owned_unchecked *)
  unfold from_owned_unchecked. apply wp_bind, wp_new; [done|]. intros rc hp Hrc.
  unfold Rc_from_parts.
  apply wp_bind, wp_begin_lifetime. apply wp_bind, wp_debug_assert. intros Hbox.
  apply wp_heap_only; [heap_only_tac|]. intros [] hp' fr. simpl.
  apply paired_insert; [assumption|]. apply paired_nonnull; [|done].
  simpl in Hc. destruct Hc as [-> | Hne]; [|done].
  specialize (Hbox eq_refl). apply negb_true_iff, N.eqb_neq in Hbox. done.
  - (* Rc(const Rc&) *)
  unfold Rc_copy. apply wp_bind, wp_load. intros [d rc] Hfrom.
  apply wp_Rc_from_parts. intros hp fr. simpl.
  apply paired_insert; [assumption|]. by apply (Hs from).
  - (* Rc(Rc&&) *)
  unfold Rc_move, exchange_data, exchange_ref_count.
  apply wp_bind, wp_bind, wp_load. intros [d rc] Hfrom.
  apply wp_bind, wp_store, wp_ret. simpl.
  apply wp_bind, wp_bind, wp_load. intros r Hr. simpl in Hr.
  rewrite lookup_insert_eq in Hr. injection Hr as <-. simpl.
  apply wp_bind, wp_store, wp_ret. simpl. rewrite insert_insert_eq.
  apply wp_bind, wp_Rc_from_parts. intros hp fr.
  apply wp_bind, wp_load. intros r _. apply wp_asserts. simpl.
  apply (paired_insert (mkState hp fr _)); [|by apply (Hs from)].
  apply paired_insert; [assumption | done].
  - (* operator=(const Rc&) *)
  unfold copy_assign, set_data, set_ref_count.
  apply wp_bind, wp_release. intros hp fr.
  apply wp_bind, wp_load. intros f Hf. simpl in Hf.
  apply wp_bind, wp_bind, wp_load. intros r Hr.
  apply wp_store. simpl.
  apply wp_bind, wp_load. intros f' Hf'. simpl in Hf'.
  apply wp_bind, wp_bind, wp_load. intros r' Hr'. simpl in Hr'.
  rewrite lookup_insert_eq in Hr'. injection Hr' as <-. simpl.
  apply wp_store. simpl. rewrite insert_insert_eq.
  apply wp_bind, wp_load. intros r'' _. apply wp_asserts. simpl.
  apply (paired_insert s); [assumption|].
  rewrite lookup_insert in Hf'. case_decide.
  + simpl in Hr. simplify_eq. simpl. destruct f. by apply (Hs from).
  + rewrite Hf in Hf'. simplify_eq. destruct f'. by apply (Hs from).
  - (* operator=(Rc&&) *)
  unfold move_assign, set_data, set_ref_count, exchange_data, exchange_ref_count.
  apply wp_bind, wp_release. intros hp fr.
  apply wp_bind, wp_bind, wp_load. intros f Hf. simpl in Hf.
  apply wp_bind, wp_store, wp_ret. simpl.
  apply wp_bind, wp_bind, wp_load. intros r Hr. simpl in Hr.
  apply wp_store. simpl.
  apply wp_bind, wp_bind, wp_load. intros f' Hf'. simpl in Hf'.
  apply wp_bind, wp_store, wp_ret. simpl.
  apply wp_bind, wp_bind, wp_load. intros r' Hr'. simpl in Hr'.
  apply wp_store. simpl.
  apply wp_bind, wp_load. intros r'' _. apply wp_asserts. simpl.
  destruct (decide (this = from)) as [->|Hne].
  + rewrite lookup_insert_eq in Hr. simplify_eq. simpl in *.
    rewrite !insert_insert_eq in *. rewrite lookup_insert_eq in Hf'. simplify_eq. simpl in *.
    rewrite lookup_insert_eq in Hr'. simplify_eq. simpl.
    apply (paired_insert s); [assumption|]. destruct f. by apply (Hs from).
  + rewrite lookup_insert_ne in Hr by done.
    rewrite lookup_insert_ne in Hf' by done. rewrite lookup_insert_eq in Hf'. simplify_eq.
    simpl in *. rewrite lookup_insert_ne in Hr' by done. rewrite lookup_insert_eq in Hr'.
    simplify_eq. simpl.
    intros y ry. simpl. rewrite lookup_insert. case_decide.
    { intros [= <-]. destruct f. by apply (Hs from). }
    rewrite lookup_insert. case_decide; [by intros [= <-]|].
    rewrite !lookup_insert_ne by done. apply Hs.
  - (* dereference *)
  apply wp_heap_only; [|intros [] hp fr; apply paired_heap; assumption].
  apply heap_only_bind; [|intros r; heap_only_tac].
  unfold deref. apply heap_only_bind; [apply heap_only_raw_ptr|]. intros p.
  auto with heap_only.
  - (* raw_ptr *)
  apply wp_heap_only; [|intros [] hp fr; apply paired_heap; assumption].
  apply heap_only_bind; [apply heap_only_raw_ptr|]. intros p. auto with heap_only.
  - (* ~Rc *)
  unfold Rc_dtor. apply wp_bind, wp_release. intros hp fr.
  apply wp_end_lifetime. simpl. apply paired_delete; assumption.
Qed.
End RcInvariant.

(** C9, amended.  Paired validity holds in every state a program reaches from
    the empty one by constructing, copying, moving, assigning, dereferencing
    and destroying shared owners, self-assignment included, as long as each
    [from_owned_unchecked] is given a non-null address or runs in a debug
    build: in each live handle [data] and [ref_count] are null together or
    non-null together. *)
Theorem paired_validity_in_every_reachable_state {T} (w : Z) (bld : build)
    (alloc : gmap N (cell T) -> option N) (s : state T Rc) :
  allocator alloc ->
  reachable w bld alloc s ->
  paired_validity s.
Proof.
  intros Halloc Hreach. induction Hreach as [|s o s' _ IH Hc Hrun].
  - intros x r. simpl. by rewrite lookup_empty.
  - by eapply run_op_paired.
Qed.

Section RcCounting.
Context {T : Type}.
Variable w : Z.
Variable bld : build.
Variable alloc : gmap N (cell T) -> option N.
Implicit Types s : state T Rc.

Lemma usize_wrap_small n : 0 <= n < 2 ^ w -> usize_wrap w n = n.
Proof. apply Z.mod_small. Qed.

Lemma Rc_from_parts_Ok x d rc n s :
  objs s !! x = None -> d <> nullptr -> rc <> nullptr ->
  heap s !! rc = Some (Counter n) ->
  Rc_from_parts w bld x d rc s =
  Ok (tt, mkState (<[rc := Counter (usize_wrap w (n + 1))]> (heap s)) (freed s)
            (<[x := mkRc d rc]> (objs s))).
Proof.
  intros Hx Hd Hrc Hn. destruct s as [h f o]; simpl in *.
  pose proof (eqb_nullptr _ Hd). pose proof (eqb_nullptr _ Hrc).
  unfold Rc_from_parts, incr. unfold_mem. destruct bld; crunch; reflexivity.
Qed.

Lemma Rc_copy_Ok x from d rc n s :
  objs s !! from = Some (mkRc d rc) -> objs s !! x = None ->
  d <> nullptr -> rc <> nullptr -> heap s !! rc = Some (Counter n) ->
  Rc_copy w bld x from s =
  Ok (tt, mkState (<[rc := Counter (usize_wrap w (n + 1))]> (heap s)) (freed s)
            (<[x := mkRc d rc]> (objs s))).
Proof.
  intros Hfrom Hx Hd Hrc Hn. unfold Rc_copy.
  erewrite bind_Ok; [| by apply load_Ok]. simpl. by apply Rc_from_parts_Ok.
Qed.

(** Dropping one of several owners: the counter goes down, nothing is freed. *)
Lemma Rc_dtor_shared x d rc n v s :
  objs s !! x = Some (mkRc d rc) -> d <> nullptr -> rc <> nullptr ->
  heap s !! rc = Some (Counter n) -> heap s !! d = Some (Object v) ->
  1 < n < 2 ^ w ->
  Rc_dtor w bld x s =
  Ok (tt, mkState (<[rc := Counter (n - 1)]> (heap s)) (freed s) (delete x (objs s))).
Proof.
  intros Hx Hd Hrc Hn Hv Hrange. destruct s as [h f o]; simpl in *.
  pose proof (eqb_nullptr _ Hd). pose proof (eqb_nullptr _ Hrc).
  assert (Hw : usize_wrap w (n - 1) = n - 1) by (apply usize_wrap_small; lia).
  assert (Hz : (n - 1 =? 0) = false) by (apply Z.eqb_neq; lia).
  unfold Rc_dtor, release, decr. unfold_mem. destruct bld; crunch; rewrite Hw; crunch;
  reflexivity.
Qed.

(** Dropping the last owner: payload and counter are freed together. *)
Lemma Rc_dtor_last x d rc v s :
  objs s !! x = Some (mkRc d rc) -> d <> nullptr -> rc <> nullptr -> d <> rc ->
  heap s !! rc = Some (Counter 1) -> heap s !! d = Some (Object v) ->
  1 < 2 ^ w ->
  Rc_dtor w bld x s =
  Ok (tt, mkState (delete rc (delete d (heap s))) (rc :: d :: freed s) (delete x (objs s))).
Proof.
  intros Hx Hd Hrc Hne Hn Hv Hrange. destruct s as [h f o]; simpl in *.
  pose proof (eqb_nullptr _ Hd). pose proof (eqb_nullptr _ Hrc).
  assert (Hw : usize_wrap w (1 - 1) = 0) by (apply usize_wrap_small; lia).
  unfold Rc_dtor, release, decr. unfold_mem. destruct bld; crunch; rewrite Hw; crunch.
  all: rewrite lookup_delete_ne by done; crunch.
  all: by rewrite delete_insert_ne, delete_insert_eq.
Qed.

(** [length xs] copies of an owner: the counter goes up by [length xs] and
every copy holds the pair of the original. *)
Lemma copies_Ok x0 xs d rc n s :
  objs s !! x0 = Some (mkRc d rc) ->
  NoDup xs -> (forall x, x ∈ xs -> objs s !! x = None) ->
  d <> nullptr -> rc <> nullptr ->
  heap s !! rc = Some (Counter n) ->
  0 <= n -> n + Z.of_nat (length xs) < 2 ^ w ->
  exists s',
  copies w bld x0 xs s = Ok (tt, s') /\
  heap s' = <[rc := Counter (n + Z.of_nat (length xs))]> (heap s) /\
  freed s' = freed s /\
  (forall x, x ∈ xs -> objs s' !! x = Some (mkRc d rc)) /\
  (forall x, x ∉ xs -> objs s' !! x = objs s !! x).
Proof.
  revert s n. induction xs as [|y ys IH]; intros s n Hx0 Hnd Hfresh Hd Hrc Hn Hn0 Hlt.
  - exists s. simpl. split; [reflexivity|]. split.
  { rewrite Z.add_0_r. symmetry. by apply insert_id. }
  split; [done|]. split; [|done]. intros x Hx. by apply elem_of_nil in Hx.
  - apply list.NoDup_cons in Hnd as [Hy Hnd]. simpl length in Hlt.
  assert (Hyfresh : objs s !! y = None) by (apply Hfresh; left).
  assert (x0 <> y) by congruence.
  pose proof (Rc_copy_Ok y x0 d rc n s Hx0 Hyfresh Hd Hrc Hn) as Hcopy.
  rewrite usize_wrap_small in Hcopy by lia.
  destruct (IH (mkState (<[rc := Counter (n + 1)]> (heap s)) (freed s)
                  (<[y := mkRc d rc]> (objs s))) (n + 1))
    as (s' & Hrun & Hheap & Hfreed & Hin & Hout); simpl; try done; try lia.
  { by rewrite lookup_insert_ne. }
  { intros x Hx. rewrite lookup_insert_ne; [apply Hfresh; by right|]. by intros ->. }
  { apply lookup_insert_eq. }
  exists s'. split; [simpl; by erewrite bind_Ok|]. split.
  { rewrite Hheap. simpl. rewrite insert_insert_eq. do 2 f_equal.
    rewrite Nat2Z.inj_succ. lia. }
  split; [done|]. split.
  + intros x [->|Hx]%elem_of_cons; [|by apply Hin].
    rewrite Hout by done. simpl. apply lookup_insert_eq.
  + intros x [Hxy Hx]%not_elem_of_cons. rewrite Hout by done. simpl.
    by rewrite lookup_insert_ne.
Qed.

(** Dropping some but not all of the owners frees nothing. *)
Lemma destroy_some l d rc n v s :
  NoDup l -> (forall x, x ∈ l -> objs s !! x = Some (mkRc d rc)) ->
  d <> nullptr -> rc <> nullptr ->
  heap s !! rc = Some (Counter n) -> heap s !! d = Some (Object v) -> d <> rc ->
  Z.of_nat (length l) < n < 2 ^ w ->
  exists s',
  destroy_all w bld l s = Ok (tt, s') /\
  heap s' = <[rc := Counter (n - Z.of_nat (length l))]> (heap s) /\
  freed s' = freed s /\
  (forall x, x ∈ l -> objs s' !! x = None) /\
  (forall x, x ∉ l -> objs s' !! x = objs s !! x).
Proof.
  revert s n. induction l as [|y l IH]; intros s n Hnd Hall Hd Hrc Hn Hv Hne Hlt.
  - exists s. simpl. split; [reflexivity|]. split.
  { rewrite Z.sub_0_r. symmetry. by apply insert_id. }
  split; [done|]. split; [|done]. intros x Hx. by apply elem_of_nil in Hx.
  - apply list.NoDup_cons in Hnd as [Hy Hnd]. simpl length in Hlt.
  assert (Hylive : objs s !! y = Some (mkRc d rc)) by (apply Hall; left).
  pose proof (Rc_dtor_shared y d rc n v s Hylive Hd Hrc Hn Hv ltac:(lia)) as Hdtor.
  destruct (IH (mkState (<[rc := Counter (n - 1)]> (heap s)) (freed s)
                  (delete y (objs s))) (n - 1))
    as (s' & Hrun & Hheap & Hfreed & Hin & Hout); simpl; try done; try lia.
  { intros x Hx. rewrite lookup_delete_ne; [apply Hall; by right|]. by intros ->. }
  { apply lookup_insert_eq. }
  { by rewrite lookup_insert_ne. }
  exists s'. split; [simpl; by erewrite bind_Ok|]. split.
  { rewrite Hheap. simpl. rewrite insert_insert_eq. do 2 f_equal.
    rewrite Nat2Z.inj_succ. lia. }
  split; [done|]. split.
  + intros x [->|Hx]%elem_of_cons; [|by apply Hin].
    rewrite Hout by done. simpl. apply lookup_delete_eq.
  + intros x [Hxy Hx]%not_elem_of_cons. rewrite Hout by done. simpl.
    by rewrite lookup_delete_ne.
Qed.

(** Dropping all of them frees payload and counter, once, at the last drop. *)
Lemma destroy_every l d rc v s :
  l <> [] ->
  NoDup l -> (forall x, x ∈ l -> objs s !! x = Some (mkRc d rc)) ->
  d <> nullptr -> rc <> nullptr ->
  heap s !! rc = Some (Counter (Z.of_nat (length l))) ->
  heap s !! d = Some (Object v) -> d <> rc ->
  Z.of_nat (length l) < 2 ^ w ->
  exists s',
  destroy_all w bld l s = Ok (tt, s') /\
  heap s' = delete rc (delete d (heap s)) /\
  freed s' = rc :: d :: freed s /\
  (forall x, x ∈ l -> objs s' !! x = None) /\
  (forall x, x ∉ l -> objs s' !! x = objs s !! x).
Proof.
  revert s. induction l as [|y l IH]; intros s Hnil Hnd Hall Hd Hrc Hn Hv Hne Hlt; [done|].
  apply list.NoDup_cons in Hnd as [Hy Hnd].
  assert (Hylive : objs s !! y = Some (mkRc d rc)) by (apply Hall; left).
  destruct l as [|z l].
  - pose proof (Rc_dtor_last y d rc v s Hylive Hd Hrc Hne Hn Hv ltac:(simpl in Hlt; lia))
    as Hdtor.
  eexists. split; [simpl; erewrite bind_Ok by exact Hdtor; reflexivity|].
  simpl. split; [done|]. split; [done|]. split.
  + intros x ->%list_elem_of_singleton. apply lookup_delete_eq.
  + intros x Hx%not_elem_of_cons. by rewrite lookup_delete_ne by (by intros ->; destruct Hx).
  - set (n := Z.of_nat (length (y :: z :: l))) in *.
  assert (Hn2 : 1 < n < 2 ^ w) by (subst n; simpl length in *; lia).
  pose proof (Rc_dtor_shared y d rc n v s Hylive Hd Hrc Hn Hv Hn2) as Hdtor.
  destruct (IH (mkState (<[rc := Counter (n - 1)]> (heap s)) (freed s) (delete y (objs s))))
    as (s' & Hrun & Hheap & Hfreed & Hin & Hout); simpl; try done.
  { intros x Hx. rewrite lookup_delete_ne; [apply Hall; by right|]. by intros ->. }
  { rewrite lookup_insert_eq. do 2 f_equal. subst n. simpl length. lia. }
  { by rewrite lookup_insert_ne. }
  { subst n. simpl length in *. lia. }
  exists s'. split; [change (destroy_all w bld (y :: z :: l)) with
                       (Rc_dtor w bld y ;; destroy_all w bld (z :: l));
                     by erewrite bind_Ok|].
  split.
  { rewrite Hheap. simpl. by rewrite delete_insert_ne, delete_insert_eq. }
  split; [done|]. split.
  + intros x [->|Hx]%elem_of_cons; [|by apply Hin].
    rewrite Hout by done. simpl. apply lookup_delete_eq.
  + intros x [Hxy Hx]%not_elem_of_cons. rewrite Hout by done. simpl.
    by rewrite lookup_delete_ne.
Qed.

(** Construction from a value, when the allocator obliges. *)
Lemma Rc_from_value_inv x v s s1 :
  allocator alloc -> 1 < 2 ^ w -> objs s !! x = None ->
  Rc_from_value w bld alloc x v s = Ok (tt, s1) ->
  exists d rc,
  d <> nullptr /\ rc <> nullptr /\ d <> rc /\
  heap s !! d = None /\ heap s !! rc = None /\
  s1 = mkState (<[rc := Counter 1]> (<[d := Object v]> (heap s))) (freed s)
         (<[x := mkRc d rc]> (objs s)).
Proof.
  intros Halloc Hw Hx Hrun. unfold Rc_from_value, bind, new_ in Hrun.
  destruct (alloc (heap s)) as [d|] eqn:Ed; [|discriminate].
  simpl in Hrun.
  destruct (alloc (<[d := Object v]> (heap s))) as [rc|] eqn:Erc; [|discriminate].
  destruct (Halloc _ _ Ed) as [Hd Hdfresh].
  destruct (Halloc _ _ Erc) as [Hrc Hrcfresh].
  apply lookup_insert_None in Hrcfresh as [Hrcfresh Hne].
  rewrite (Rc_from_parts_Ok x d rc 0) in Hrun; simpl; try done;
  [|apply lookup_insert_eq].
  simpl in Hrun. rewrite usize_wrap_small in Hrun by lia.
  rewrite insert_insert_eq in Hrun.
  exists d, rc. by simplify_eq.
Qed.
End RcCounting.
(** C5.  One owner [x0] is constructed from [v] and copied into the owners
    [xs]; the [N = 1 + length xs] owners are destroyed in the order
    [order], any permutation of them.  All of them hold the same pair
    [(d, rc)], the counter reads [N], each of the first [N - 1] destructions
    lowers it by one and frees nothing, and the [N]th frees the payload and
    the counter together: the deallocation log grows by exactly [rc; d] and
    the heap is what it was before the construction.  [N] fits the
    counter. *)
Theorem shared_payload_freed_once_at_last_drop {T} (w : Z) (bld : build)
    (alloc : gmap N (cell T) -> option N) (st0 st1 : state T Rc)
    (x0 : nat) (xs order : list nat) (v : T) :
  allocator alloc ->
  NoDup (x0 :: xs) ->
  (forall x, x ∈ x0 :: xs -> objs st0 !! x = None) ->
  Z.of_nat (length (x0 :: xs)) < 2 ^ w ->
  (Rc_from_value w bld alloc x0 v ;; copies w bld x0 xs) st0 = Ok (tt, st1) ->
  order ≡ₚ x0 :: xs ->
  exists d rc,
    d <> rc /\ heap st0 !! d = None /\ heap st0 !! rc = None /\
    (forall x, x ∈ order -> objs st1 !! x = Some (mkRc d rc)) /\
    heap st1 !! d = Some (Object v) /\
    heap st1 !! rc = Some (Counter (Z.of_nat (length order))) /\
    (forall k, (k < length order)%nat ->
       exists sk,
         destroy_all w bld (take k order) st1 = Ok (tt, sk) /\
         heap sk !! d = Some (Object v) /\
         heap sk !! rc = Some (Counter (Z.of_nat (length order - k))) /\
         freed sk = freed st0) /\
    (exists sN,
       destroy_all w bld order st1 = Ok (tt, sN) /\
       heap sN = heap st0 /\
       freed sN = rc :: d :: freed st0 /\
       forall x, x ∈ order -> objs sN !! x = None).
Proof.
  intros Halloc Hnd Hfresh Hlt Hrun Hperm.
  pose proof (Permutation_length Hperm) as Hlen.
  assert (Hndo : NoDup order) by by rewrite Hperm.
  simpl length in Hlt. simpl length in Hlen.
  apply list.NoDup_cons in Hnd as [Hx0 Hndxs].
  apply bind_inv in Hrun as ([] & s1 & Hnew & Hcopies).
  apply Rc_from_value_inv in Hnew
    as (d & rc & Hd & Hrc & Hne & Hdfresh & Hrcfresh & ->);
    [|done|lia|apply Hfresh; by left].
  destruct (copies_Ok w bld x0 xs d rc 1
              (mkState (<[rc := Counter 1]> (<[d := Object v]> (heap st0))) (freed st0)
                 (<[x0 := mkRc d rc]> (objs st0))))
    as (s' & Hrun & Hheap & Hfreed & Hin & Hout); simpl; try done; try lia.
  { apply lookup_insert_eq. }
  { intros x Hx. rewrite lookup_insert_ne by (by intros ->). apply Hfresh. by right. }
  { apply lookup_insert_eq. }
  rewrite Hrun in Hcopies. injection Hcopies as <-. simpl in *.
  rewrite insert_insert_eq in Hheap.
  assert (Hall : forall x, x ∈ order -> objs s' !! x = Some (mkRc d rc)).
  { intros x Hx. rewrite Hperm in Hx. apply elem_of_cons in Hx as [->|Hx]; [|by apply Hin].
    rewrite Hout by done. apply lookup_insert_eq. }
  assert (Hcount : heap s' !! rc = Some (Counter (Z.of_nat (length order)))).
  { rewrite Hheap, lookup_insert_eq. do 2 f_equal. lia. }
  assert (Hpayload : heap s' !! d = Some (Object v)).
  { rewrite Hheap, lookup_insert_ne by done. apply lookup_insert_eq. }
  exists d, rc. do 6 (split; [done|]). split.
  - intros k Hk.
    destruct (destroy_some w bld (take k order) d rc (Z.of_nat (length order)) v s')
      as (sk & Hsk & Hhk & Hfk & _ & _); try done.
    { eapply sublist_NoDup; [exact Hndo | apply sublist_take]. }
    { intros x [i [Hi _]]%elem_of_take. eapply Hall, list_elem_of_lookup_2, Hi. }
    { rewrite length_take_le by lia. lia. }
    exists sk. split; [done|]. rewrite length_take_le in Hhk by lia.
    rewrite Hhk. split; [by rewrite lookup_insert_ne|]. split; [|congruence].
    rewrite lookup_insert_eq. do 2 f_equal. lia.
  - destruct (destroy_every w bld order d rc v s')
      as (sN & HsN & HhN & HfN & HinN & _); try done; try lia.
    { intros ->. simpl in Hlen. lia. }
    exists sN. split; [done|]. split; [|split; [congruence | done]].
    rewrite HhN, Hheap. apply map_eq. intros i.
    destruct (decide (i = rc)) as [->|Hirc]; [by rewrite lookup_delete_eq|].
    rewrite lookup_delete_ne by done.
    destruct (decide (i = d)) as [->|Hid]; [by rewrite lookup_delete_eq|].
    by rewrite lookup_delete_ne, !lookup_insert_ne.
Qed.

Lemma shared_payload_freed_once_at_last_drop_witness :
  let st1 := mkState {[ 1%N := Object 7%nat; 2%N := Counter 3 ]} []
               {[ 0%nat := mkRc 1 2; 1%nat := mkRc 1 2; 2%nat := mkRc 1 2 ]} in
  exists d rc sN,
    destroy_all 64 Debug [2; 0; 1]%nat st1 = Ok (tt, sN) /\
    heap sN = ∅ /\ freed sN = [rc; d].
Proof.
  intros st1.
  destruct (shared_payload_freed_once_at_last_drop 64 Debug first_fresh
              (mkState ∅ [] ∅) st1 0%nat [1; 2]%nat [2; 0; 1]%nat 7%nat)
    as (d & rc & _ & _ & _ & _ & _ & _ & _ & sN & HsN & Hh & Hf & _).
  - apply first_fresh_allocator.
  - compute_done.
  - intros x _. apply lookup_empty.
  - reflexivity.
  - vm_compute. reflexivity.
  - apply (Permutation_cons_append [0; 1]%nat 2%nat).
  - exists d, rc, sN. auto.
Defined.

Lemma paired_validity_in_every_reachable_state_witness :
  paired_validity
    (mkState {[ 1%N := Object 7%nat; 2%N := Counter 2 ]} []
       {[ 0%nat := mkRc nullptr nullptr; 1%nat := mkRc 1 2 ]}).
Proof.
  apply (paired_validity_in_every_reachable_state 64 Debug first_fresh).
  - apply first_fresh_allocator.
  - apply (reach_step 64 Debug first_fresh
             (mkState {[ 1%N := Object 7%nat; 2%N := Counter 1 ]} [] {[ 0%nat := mkRc 1 2 ]})
             (OpMove 1 0)).
    + apply (reach_step 64 Debug first_fresh (mkState ∅ [] ∅) (OpFromValue 0 7%nat)).
      * apply reach_init.
      * exact I.
      * vm_compute. reflexivity.
    + exact I.
    + vm_compute. reflexivity.
Defined.

(** C9 as worded, for every operation and every reachable state, fails: in a
    release build [from_owned_unchecked(nullptr)], called where an owner
    exists already, returns a handle whose [data] is null and whose
    [ref_count] is the address of a live counter. *)
Lemma null_wrap_breaks_paired_validity :
  (run_op 64 Release first_fresh (OpFromValue 0%nat 7%nat) ;;
   run_op 64 Release first_fresh (OpFromOwnedUnchecked 1%nat nullptr)) (mkState ∅ [] ∅) =
    Ok (tt, mkState {[ 1%N := Object 7%nat; 2%N := Counter 1; 3%N := Counter 1 ]} []
              {[ 0%nat := mkRc 1 2; 1%nat := mkRc nullptr 3 ]}) /\
  ~ paired_validity
      (mkState {[ 1%N := Object 7%nat; 2%N := Counter 1; 3%N := Counter 1 ]} []
         {[ 0%nat := mkRc 1 2; 1%nat := mkRc nullptr 3 ]}).
Proof.
  split.
  - vm_compute. reflexivity.
  - intros Hpv.
    destruct (Hpv 1%nat (mkRc nullptr 3) eq_refl) as [Hnull _].
    specialize (Hnull eq_refl). discriminate Hnull.
Qed.

(** C1.  Move-construction [Rc b(std::move(a))] from an owner made by
    [Rc(T&&)], whose counter reads 1.  [Rc(Rc&&)] delegates to the
    constructor from the two addresses, which adds one: the source is
    cleared, the counter reads 2 with one live owner, and destroying both
    objects leaves payload and counter allocated. *)
Theorem Rc_move_increments_counter {T} (bld : build) (v : T) :
  let a := 0%nat in
  let b := 1%nat in
  let st := mkState {[ 1%N := Object v; 2%N := Counter 1 ]} [] {[ a := mkRc 1 2 ]} in
  Rc_from_value 64 bld first_fresh a v (mkState ∅ [] ∅) = Ok (tt, st) /\
  Rc_move 64 bld b a st =
    Ok (tt, mkState {[ 1%N := Object v; 2%N := Counter 2 ]} []
              {[ a := mkRc nullptr nullptr; b := mkRc 1 2 ]}) /\
  (Rc_move 64 bld b a ;; Rc_dtor 64 bld a ;; Rc_dtor 64 bld b) st =
    Ok (tt, mkState {[ 1%N := Object v; 2%N := Counter 1 ]} [] ∅).
Proof. destruct bld; vm_compute; done. Qed.

(** C2.  Copy-assignment [b = a] between owners of two payloads.
    [operator=(const Rc&)] releases the old pair of [b] and aliases the pair
    of [a], and leaves the counter of that pair at 1, where
    copy-construction from [a] makes it 2.  After [a] is destroyed, [b]
    points into freed memory. *)
Theorem copy_assign_keeps_counter {T} (bld : build) (v1 v2 : T) :
  let a := 0%nat in
  let b := 1%nat in
  let st := mkState {[ 1%N := Object v1; 2%N := Counter 1; 3%N := Object v2; 4%N := Counter 1 ]} []
                    {[ a := mkRc 1 2; b := mkRc 3 4 ]} in
  let st' := mkState {[ 1%N := Object v1; 2%N := Counter 1 ]} [4%N; 3%N]
                     {[ a := mkRc 1 2; b := mkRc 1 2 ]} in
  (Rc_from_value 64 bld first_fresh a v1 ;; Rc_from_value 64 bld first_fresh b v2)
    (mkState ∅ [] ∅) = Ok (tt, st) /\
  copy_assign 64 bld b a st = Ok (tt, st') /\
  Rc_copy 64 bld 2%nat a st =
    Ok (tt, mkState {[ 1%N := Object v1; 2%N := Counter 2; 3%N := Object v2; 4%N := Counter 1 ]} []
              {[ a := mkRc 1 2; b := mkRc 3 4; 2%nat := mkRc 1 2 ]}) /\
  (Rc_dtor 64 bld a ;; r <- deref bld b ;; read r) st' = Fault (UndefinedBehaviour UseAfterFree) /\
  (Rc_dtor 64 bld a ;; Rc_dtor 64 bld b) st' = Fault (UndefinedBehaviour UseAfterFree).
Proof. destruct bld; vm_compute; done. Qed.

End RcSpec.

(** ** range.hpp: what the loops visit *)
Module RangeSpec.
Import range.

Section Loops.
Variable w : Z.

(** Counting up without reaching the end of the type. *)
Lemma for_each_up (n fuel : nat) (p e : Z) :
  0 <= p -> p <= e -> e < 2 ^ w ->
  Z.to_nat (e - p) = n -> (n <= fuel)%nat ->
  for_each w fuel (mkIterator p) (mkIterator e) = Some (seqZ p (e - p)).
Proof.
  revert fuel p. induction n as [|n IH]; intros fuel p Hp Hpe He Hn Hfuel.
  - assert (p = e) as -> by lia.
    destruct fuel; simpl; unfold Iterator_neq; simpl; rewrite Z.eqb_refl; simpl;
      by rewrite Z.sub_diag.
  - destruct fuel as [|fuel]; [lia|]. simpl. unfold Iterator_neq. simpl.
    assert (Hne : (p =? e) = false) by (apply Z.eqb_neq; lia).
    rewrite Hne. simpl. unfold Iterator_incr, Iterator_deref. simpl.
    rewrite Z.mod_small by lia.
    rewrite (IH fuel (p + 1)) by lia.
    rewrite (seqZ_cons p (e - p)) by lia.
    do 3 f_equal; lia.
Qed.

(** Counting up from above the end: through the largest value, round to 0. *)
Lemma for_each_wrap (n fuel : nat) (p e : Z) :
  0 <= e -> e < p -> p < 2 ^ w ->
  Z.to_nat (2 ^ w - p) = n -> (n + Z.to_nat e <= fuel)%nat ->
  for_each w fuel (mkIterator p) (mkIterator e) = Some (seqZ p (2 ^ w - p) ++ seqZ 0 e).
Proof.
  revert fuel p. induction n as [|n IH]; intros fuel p He Hep Hp Hn Hfuel; [lia|].
  destruct fuel as [|fuel]; [lia|]. simpl. unfold Iterator_neq. simpl.
  assert (Hne : (p =? e) = false) by (apply Z.eqb_neq; lia).
  rewrite Hne. simpl. unfold Iterator_incr, Iterator_deref. simpl.
  rewrite (seqZ_cons p (2 ^ w - p)) by lia. simpl.
  destruct (decide (p + 1 = 2 ^ w)) as [Hlast|Hlast].
  - rewrite Hlast, Z_mod_same_full.
    rewrite (for_each_up (Z.to_nat e) fuel 0 e) by lia.
    rewrite Z.sub_0_r. rewrite (seqZ_nil (Z.succ p)) by lia. done.
  - rewrite Z.mod_small by lia.
    rewrite (IH fuel (p + 1)) by lia.
    replace (Z.succ p) with (p + 1) by lia.
    by replace (Z.pred (2 ^ w - p)) with (2 ^ w - (p + 1)) by lia.
Qed.
End Loops.

Lemma range_loop (w : Z) (asserts : bool) (min max : Z) (fuel : nat) :
  0 <= min -> min <= max -> max < 2 ^ w ->
  (Z.to_nat (max - min) <= fuel)%nat ->
  loop_over w fuel (range asserts min max) = Ok (Some (seqZ min (max - min))).
Proof.
  intros Hmin Hle Hmax Hfuel.
  assert (Hleb : (min <=? max) = true) by by apply Z.leb_le.
  unfold range, Range_new. rewrite Hleb, andb_false_r. simpl.
  unfold range_for, begin_, end_. simpl.
  by rewrite (for_each_up w (Z.to_nat (max - min))).
Qed.

Lemma range_to_loop (w : Z) (asserts : bool) (max : Z) (fuel : nat) :
  0 <= max -> max < 2 ^ w -> (Z.to_nat max <= fuel)%nat ->
  loop_over w fuel (range_to asserts max) = Ok (Some (seqZ 0 max)).
Proof.
  intros Hle Hmax Hfuel.
  pose proof (range_loop w asserts 0 max fuel) as H.
  rewrite Z.sub_0_r in H. apply H; lia.
Qed.

(** X18.  [crab::range] over an unsigned type of [w] bits, whose values are
    [0 .. 2 ^ w - 1]: counting from [min] up to, not including, [max]; in
    particular nothing for [min = max]. *)
Theorem range_visits_half_open (w : Z) (asserts : bool) (min max : Z) (fuel : nat) :
  0 <= min -> min <= max -> max < 2 ^ w ->
  (Z.to_nat (max - min) <= fuel)%nat ->
  loop_over w fuel (range asserts min max) = Ok (Some (seqZ min (max - min))) /\
  (min = max -> loop_over w fuel (range asserts min max) = Ok (Some [])).
Proof.
  intros Hmin Hle Hmax Hfuel. split; [by apply range_loop|].
  intros ->. rewrite range_loop by lia. by rewrite Z.sub_diag.
Qed.

Lemma range_visits_half_open_witness :
  loop_over 64 10 (range true 5 9) = Ok (Some [5; 6; 7; 8]).
Proof.
  apply (range_visits_half_open 64 true 5 9 10); [lia | lia | reflexivity | simpl; lia].
Defined.

(** X19.  [crab::range(max)]: counting from 0 up to, not including, [max]. *)
Theorem range_to_visits_from_zero (w : Z) (asserts : bool) (max : Z) (fuel : nat) :
  0 <= max -> max < 2 ^ w -> (Z.to_nat max <= fuel)%nat ->
  loop_over w fuel (range_to asserts max) = Ok (Some (seqZ 0 max)).
Proof. apply range_to_loop. Qed.

Lemma range_to_visits_from_zero_witness :
  loop_over 64 10 (range_to true 3) = Ok (Some [0; 1; 2]).
Proof.
  apply (range_to_visits_from_zero 64 true 3 10); [lia | reflexivity | simpl; lia].
Defined.

(** X20.  An inverted range: the assertion of the constructor stops it where
    [assert] is compiled in; with [NDEBUG] the loop runs through the largest
    value of the type and round to [max]. *)
Theorem inverted_range_asserts_or_wraps (w : Z) (min max : Z) (fuel : nat) :
  0 <= max -> max < min -> min < 2 ^ w ->
  (Z.to_nat (2 ^ w - min) + Z.to_nat max <= fuel)%nat ->
  range true min max =
    Fault (AssertionFailure "Invalid Range, max cannot be greater than min") /\
  loop_over w fuel (range false min max) =
    Ok (Some (seqZ min (2 ^ w - min) ++ seqZ 0 max)).
Proof.
  intros Hmax Hlt Hmin Hfuel.
  assert (Hleb : (min <=? max) = false) by by apply Z.leb_gt.
  split.
  - unfold range, Range_new. by rewrite Hleb.
  - unfold range, Range_new. simpl. unfold range_for, begin_, end_. simpl.
    by rewrite (for_each_wrap w (Z.to_nat (2 ^ w - min))).
Qed.

Lemma inverted_range_asserts_or_wraps_witness :
  range true 6 2 = Fault (AssertionFailure "Invalid Range, max cannot be greater than min") /\
  loop_over 3 10 (range false 6 2) = Ok (Some [6; 7; 0; 1]).
Proof.
  apply (inverted_range_asserts_or_wraps 3 6 2 10); [lia | lia | reflexivity | simpl; lia].
Defined.

(** X21.  [crab::range_inclusive] over an unsigned type of [w] bits, below the
    largest value of the type: counting from [min] up to and including
    [max]. *)
Theorem range_inclusive_visits_closed (w : Z) (asserts : bool) (min max : Z) (fuel : nat) :
  0 <= min -> min <= max -> max + 1 < 2 ^ w ->
  (Z.to_nat (max - min + 1) <= fuel)%nat ->
  loop_over w fuel (range_inclusive w asserts min max) = Ok (Some (seqZ min (max - min + 1))) /\
  (min = 0 ->
     loop_over w fuel (range_inclusive_to w asserts max) = Ok (Some (seqZ 0 (max + 1)))).
Proof.
  intros Hmin Hle Hmax Hfuel.
  unfold range_inclusive, range_inclusive_to. rewrite Z.mod_small by lia.
  split.
  - rewrite range_loop by lia. do 3 f_equal. lia.
  - intros ->. apply range_to_loop; lia.
Qed.

Lemma range_inclusive_visits_closed_witness :
  loop_over 64 10 (range_inclusive 64 true 5 8) = Ok (Some [5; 6; 7; 8]) /\
  loop_over 64 10 (range_inclusive_to 64 true 2) = Ok (Some [0; 1; 2]).
Proof.
  split.
  - apply (range_inclusive_visits_closed 64 true 5 8 10); [lia | lia | reflexivity | simpl; lia].
  - apply (range_inclusive_visits_closed 64 true 0 2 10);
      [lia | lia | reflexivity | simpl; lia | reflexivity].
Defined.

(** X22.  [crab::range_inclusive] up to the largest value of the type: [max + 1]
    wraps to 0.  From [min = 0] the range is empty and the loop body never
    runs (both overloads); from [min > 0] the constructor's assertion fails
    where [assert] is compiled in, and with [NDEBUG] the loop does visit
    [min] to the largest value. *)
Theorem range_inclusive_of_largest_value (w : Z) (min : Z) (fuel : nat) :
  0 < w -> 0 <= min -> min < 2 ^ w ->
  (Z.to_nat (2 ^ w - min) <= fuel)%nat ->
  let largest := 2 ^ w - 1 in
  (forall asserts,
     loop_over w fuel (range_inclusive w asserts 0 largest) = Ok (Some []) /\
     loop_over w fuel (range_inclusive_to w asserts largest) = Ok (Some [])) /\
  (0 < min ->
     range_inclusive w true min largest =
       Fault (AssertionFailure "Invalid Range, max cannot be greater than min") /\
     loop_over w fuel (range_inclusive w false min largest) =
       Ok (Some (seqZ min (2 ^ w - min)))).
Proof.
  intros Hw Hmin Hlt Hfuel largest.
  assert (Hwrap : (largest + 1) mod 2 ^ w = 0).
  { unfold largest. replace (2 ^ w - 1 + 1) with (2 ^ w) by lia. apply Z_mod_same_full. }
  unfold range_inclusive, range_inclusive_to. rewrite Hwrap. split.
  - intros asserts. split.
    + rewrite range_loop by lia. done.
    + rewrite range_to_loop by lia. done.
  - intros Hpos. split.
    + unfold range, Range_new.
      assert (Hleb : (min <=? 0) = false) by by apply Z.leb_gt.
      by rewrite Hleb.
    + unfold range, Range_new. simpl. unfold range_for, begin_, end_. simpl.
      rewrite (for_each_wrap w (Z.to_nat (2 ^ w - min))) by lia.
      by rewrite app_nil_r.
Qed.

Lemma range_inclusive_of_largest_value_witness :
  loop_over 3 10 (range_inclusive 3 true 0 7) = Ok (Some []) /\
  range_inclusive 3 true 5 7 =
    Fault (AssertionFailure "Invalid Range, max cannot be greater than min") /\
  loop_over 3 10 (range_inclusive 3 false 5 7) = Ok (Some [5; 6; 7]).
Proof.
  destruct (range_inclusive_of_largest_value 3 5 10) as [H0 H5];
    [lia | lia | reflexivity | simpl; lia |].
  destruct (H0 true) as [Hz _]. destruct (H5 ltac:(lia)) as [Hf Hl].
  split; [exact Hz|]. split; [exact Hf | exact Hl].
Defined.
End RangeSpec.

(** ** More of the exclusive owner *)
Module BoxMore.
Import box BoxSpec.

Ltac unfold_box_more :=
  unfold make_boxxed_array, make_box, Box_from_value, move_assign_derived, release_array in *;
  unfold_box.

Section Facts.
Context {T : Type}.

(** What [*x] yields depends on the handle value and on the cell it points
    to. *)
Lemma value_local bld sh (x y : nat) (s1 s2 : state T (Box sh)) bx v :
  objs s1 !! x = Some bx -> objs s2 !! y = Some bx ->
  heap s2 !! obj bx = heap s1 !! obj bx ->
  value bld x s1 = Ok (v, s1) -> value bld y s2 = Ok (v, s2).
Proof.
  destruct s1 as [h1 f1 o1], s2 as [h2 f2 o2]. simpl.
  intros Hx Hy Hh. unfold value, deref, as_ptr, raw_ptr, lvalue, read.
  unfold_mem. simpl. rewrite Hx, Hy. simpl.
  destruct bld; simpl; destruct (N.eqb (obj bx) nullptr); simpl; try done;
  destruct (decide (obj bx = nullptr)); simpl; try done;
  rewrite ?Hh;
  destruct (h1 !! obj bx) as [[v0|vs|n0]|] eqn:E; simpl; rewrite ?Hh, ?E; simpl; try done;
  repeat (case_decide; simpl; rewrite ?Hh, ?E; simpl; try done);
  try (destruct (vs !! Z.to_nat 0); simpl; try done);
  by intros [= ->].
Qed.

Lemma make_box_Ok alloc (this : nat) (v : T) (st : state T (Box Single)) p :
  alloc (heap st) = Some p -> objs st !! this = None ->
  make_box alloc this v st =
    Ok (tt, mkState (<[p := Object v]> (heap st)) (freed st)
              (<[this := mkBox Single p tt]> (objs st))).
Proof.
  intros Hp Hthis. destruct st as [h f o]; simpl in *.
  unfold make_box, wrap_unchecked, Box_from_ptr. unfold_mem. simpl. rewrite Hp. crunch.
  reflexivity.
Qed.

Lemma move_assign_Ok (a b : nat) (st : state T (Box Single)) pa pb c :
  a <> b ->
  objs st !! a = Some (mkBox Single pa tt) -> objs st !! b = Some (mkBox Single pb tt) ->
  pa <> nullptr -> heap st !! pa = Some c -> kind_of c = KObject ->
  move_assign a b st =
    Ok (tt, mkState (delete pa (heap st)) (pa :: freed st)
              (<[a := mkBox Single pb tt]> (<[b := mkBox Single nullptr tt]> (objs st)))).
Proof.
  intros Hab Ha Hb Hpa Hc Hk. destruct st as [h f o]; simpl in *.
  unfold move_assign, drop, exchange_obj, set_obj. unfold_mem. crunch.
  rewrite decide_True by done. crunch. reflexivity.
Qed.

Lemma move_assign_into_empty (a b : nat) (st : state T (Box Single)) pb :
  a <> b ->
  objs st !! a = Some (mkBox Single nullptr tt) -> objs st !! b = Some (mkBox Single pb tt) ->
  move_assign a b st =
    Ok (tt, mkState (heap st) (freed st)
              (<[a := mkBox Single pb tt]> (<[b := mkBox Single nullptr tt]> (objs st)))).
Proof.
  intros Hab Ha Hb. destruct st as [h f o]; simpl in *.
  unfold move_assign, drop, exchange_obj, set_obj. unfold_mem. crunch. reflexivity.
Qed.

Lemma unwrap_empty_release (a : nat) (st : state T (Box Single)) :
  objs st !! a = Some (mkBox Single nullptr tt) ->
  unwrap Release a st = Ok (nullptr, st) /\ release Release a st = Ok (nullptr, st).
Proof.
  intros Ha. destruct st as [h f o]; simpl in *.
  pose proof (local_fresh o) as Hx.
  assert (a <> fresh (dom o)) by congruence.
  assert (Hu : forall o', o' !! a = Some (mkBox Single nullptr tt) ->
                 o' !! fresh (dom o') = None ->
                 @unwrap T Release a (mkState h f o') = Ok (nullptr, mkState h f o')).
  { intros o' Ha' Hx'. assert (a <> fresh (dom o')) by congruence.
    unfold unwrap, Box_dtor, drop, Box_move, raw_ptr, set_obj, exchange_obj, exchange_size.
    unfold_mem. crunch.
    rewrite delete_insert_eq, delete_id by (by rewrite lookup_insert_ne).
    by rewrite insert_id. }
  split; [by apply Hu|].
  unfold release. unfold bind at 1. unfold local at 1. simpl.
  unfold bind at 1. erewrite Box_move_Ok by (simpl; eauto). simpl.
  rewrite (insert_id o a) by done.
  unfold bind at 1. unfold unwrap, Box_dtor, drop, Box_move, raw_ptr, set_obj, exchange_obj,
    exchange_size. unfold_mem. simpl.
  set (x1 := fresh (dom o)) in *.
  set (o1 := <[x1 := mkBox Single nullptr ()]> o).
  pose proof (local_fresh o1) as Hx1.
  set (x2 := fresh (dom o1)) in *.
  assert (x1 <> x2). { intros E. rewrite <- E in Hx1. unfold o1 in Hx1.
                       by rewrite lookup_insert_eq in Hx1. }
  assert (Ho1 : o1 !! x1 = Some (mkBox Single nullptr ())) by apply lookup_insert_eq.
  crunch.
  rewrite (delete_insert_eq _ x2), (delete_id _ x2) by (by rewrite lookup_insert_ne).
  crunch. unfold o1. rewrite insert_insert_eq, delete_insert_eq, delete_id by done.
  reflexivity.
Qed.

Lemma unwrap_empty_aborts (a : nat) (st : state T (Box Single)) :
  objs st !! a = Some (mkBox Single nullptr tt) ->
  unwrap Debug a st = Fault (AssertionFailure "Invalid Use of Moved Box<T>.").
Proof.
  intros Ha. destruct st as [h f o]; simpl in *.
  pose proof (local_fresh o) as Hx.
  assert (a <> fresh (dom o)) by congruence.
  unfold unwrap, Box_dtor, drop, Box_move, raw_ptr, set_obj, exchange_obj, exchange_size.
  unfold_mem. crunch. reflexivity.
Qed.

Lemma unwrap_empty_debug (a : nat) (st : state T (Box Single)) :
  objs st !! a = Some (mkBox Single nullptr tt) ->
  unwrap Debug a st = Fault (AssertionFailure "Invalid Use of Moved Box<T>.") /\
  release Debug a st = Fault (AssertionFailure "Invalid Use of Moved Box<T>.").
Proof.
  intros Ha. split; [by apply unwrap_empty_aborts|].
  destruct st as [h f o]; simpl in *.
  pose proof (local_fresh o) as Hx.
  assert (a <> fresh (dom o)) by congruence.
  unfold release. unfold bind at 1. unfold local at 1. simpl.
  unfold bind at 1. erewrite Box_move_Ok by (simpl; eauto). simpl.
  unfold bind at 1. rewrite unwrap_empty_aborts; [done|]. simpl. apply lookup_insert_eq.
Qed.

Lemma drop_either (x : nat) (st : state T (Box Single)) p :
  objs st !! x = Some (mkBox Single p tt) ->
  (p <> nullptr -> exists c, heap st !! p = Some c /\ kind_of c = KObject) ->
  exists hp fr,
    drop x st = Ok (tt, mkState hp fr (objs st)) /\
    (p = nullptr -> hp = heap st /\ fr = freed st) /\
    (p <> nullptr -> hp = delete p (heap st) /\ fr = p :: freed st).
Proof.
  intros Hx Hlive. destruct (decide (p = nullptr)) as [->|Hp].
  - exists (heap st), (freed st). split; [|done].
    rewrite (drop_null Single x st _ Hx) by done. by destruct st.
  - destruct (Hlive Hp) as (c & Hc & Hk).
    exists (delete p (heap st)), (p :: freed st). split; [|done].
    by rewrite (drop_Ok Single x st _ c Hx).
Qed.

Lemma move_assign_after_drop (a b : nat) (st : state T (Box Single)) pa pb hp fr :
  a <> b ->
  objs st !! a = Some (mkBox Single pa tt) -> objs st !! b = Some (mkBox Single pb tt) ->
  drop a st = Ok (tt, mkState hp fr (objs st)) ->
  move_assign a b st =
    Ok (tt, mkState hp fr
              (<[a := mkBox Single pb tt]> (<[b := mkBox Single nullptr tt]> (objs st)))).
Proof.
  intros Hab Ha Hb Hdrop. unfold move_assign. erewrite bind_Ok by exact Hdrop.
  unfold exchange_obj, set_obj. unfold_mem. crunch. reflexivity.
Qed.

Lemma move_assign_derived_after_drop bld (a b : nat) (st : state T (Box Single)) pa pb hp fr :
  a <> b ->
  objs st !! a = Some (mkBox Single pa tt) -> objs st !! b = Some (mkBox Single pb tt) ->
  drop a st = Ok (tt, mkState hp fr (objs st)) ->
  pb <> nullptr \/ bld = Release ->
  move_assign_derived bld a b st =
    Ok (tt, mkState hp fr
              (<[a := mkBox Single pb tt]> (<[b := mkBox Single nullptr tt]> (objs st)))).
Proof.
  intros Hab Ha Hb Hdrop Hcase. unfold move_assign_derived.
  erewrite bind_Ok by exact Hdrop.
  assert (Hun : unwrap bld b (mkState hp fr (objs st)) =
                Ok (pb, mkState hp fr (<[b := mkBox Single nullptr tt]> (objs st)))).
  { destruct (decide (pb = nullptr)) as [->|Hpb].
    - destruct Hcase as [?| ->]; [done|].
      destruct (unwrap_empty_release b (mkState hp fr (objs st)) Hb) as [-> _].
      by rewrite insert_id.
    - by rewrite (unwrap_Ok bld b (mkState hp fr (objs st)) pb). }
  erewrite bind_Ok by exact Hun.
  unfold set_obj. unfold_mem. crunch. reflexivity.
Qed.
End Facts.

Ltac same_objs :=
  apply map_eq; intros ?;
  repeat first [rewrite lookup_delete | rewrite lookup_insert];
  repeat case_decide; simplify_eq; try done.

Section ArrayFacts.
Context {T : Type}.
Implicit Types st : state T (Box Array).

Lemma drop_array_either (x : nat) st p n :
  objs st !! x = Some (mkBox Array p n) ->
  (p <> nullptr -> exists vs, heap st !! p = Some (Block vs)) ->
  exists hp fr,
    drop x st = Ok (tt, mkState hp fr (objs st)) /\
    (p = nullptr -> hp = heap st /\ fr = freed st) /\
    (p <> nullptr -> hp = delete p (heap st) /\ fr = p :: freed st).
Proof.
  intros Hx Hlive. destruct (decide (p = nullptr)) as [->|Hp].
  - exists (heap st), (freed st). split; [|done].
    rewrite (drop_null Array x st _ Hx) by done. by destruct st.
  - destruct (Hlive Hp) as (vs & Hc).
    exists (delete p (heap st)), (p :: freed st). split; [|done].
    by rewrite (drop_Ok Array x st _ (Block vs) Hx).
Qed.

Ltac unfold_array :=
  unfold release_array, unwrap_array, move_assign_array, Box_dtor, drop, Box_move,
    set_obj, set_size, exchange_obj, exchange_size.

Lemma move_assign_array_live (a b : nat) st pa na pb nb vs :
  a <> b ->
  objs st !! a = Some (mkBox Array pa na) -> objs st !! b = Some (mkBox Array pb nb) ->
  pa <> nullptr -> heap st !! pa = Some (Block vs) ->
  move_assign_array a b st =
    Ok (tt, mkState (delete pa (heap st)) (pa :: freed st)
              (<[a := mkBox Array pb nb]> (<[b := mkBox Array nullptr 0]> (objs st)))).
Proof.
  intros Hab Ha Hb Hpa Hvs. destruct st as [h f o]; simpl in *.
  pose proof (local_fresh o) as Hx.
  assert (a <> fresh (dom o)) by congruence.
  assert (b <> fresh (dom o)) by congruence.
  unfold_array. unfold_mem. crunch. do 3 f_equal. same_objs.
Qed.

Lemma move_assign_array_empty (a b : nat) st na pb nb :
  a <> b ->
  objs st !! a = Some (mkBox Array nullptr na) -> objs st !! b = Some (mkBox Array pb nb) ->
  move_assign_array a b st =
    Ok (tt, mkState (heap st) (freed st)
              (<[a := mkBox Array pb nb]> (<[b := mkBox Array nullptr 0]> (objs st)))).
Proof.
  intros Hab Ha Hb. destruct st as [h f o]; simpl in *.
  pose proof (local_fresh o) as Hx.
  assert (a <> fresh (dom o)) by congruence.
  assert (b <> fresh (dom o)) by congruence.
  unfold_array. unfold_mem. crunch. do 3 f_equal. same_objs.
Qed.

Lemma move_assign_array_self (a : nat) st pa na :
  objs st !! a = Some (mkBox Array pa na) ->
  move_assign_array a a st = Ok (tt, st).
Proof.
  intros Ha. destruct st as [h f o]; simpl in *.
  pose proof (local_fresh o) as Hx.
  assert (a <> fresh (dom o)) by congruence.
  unfold_array. unfold_mem. crunch. do 3 f_equal. same_objs.
Qed.

Lemma unwrap_array_Ok (a : nat) st p n :
  objs st !! a = Some (mkBox Array p n) ->
  unwrap_array a st =
    Ok ((p, n), mkState (heap st) (freed st) (<[a := mkBox Array nullptr 0]> (objs st))).
Proof.
  intros Ha. destruct st as [h f o]; simpl in *.
  pose proof (local_fresh o) as Hx.
  assert (a <> fresh (dom o)) by congruence.
  unfold_array. unfold_mem. crunch. do 3 f_equal. same_objs.
Qed.

Lemma release_array_Ok (a : nat) st p n :
  objs st !! a = Some (mkBox Array p n) ->
  release_array a st =
    Ok ((p, n), mkState (heap st) (freed st) (<[a := mkBox Array nullptr 0]> (objs st))).
Proof.
  intros Ha. destruct st as [h f o]; simpl in *.
  pose proof (local_fresh o) as Hx.
  assert (a <> fresh (dom o)) by congruence.
  unfold release_array. unfold bind at 1. unfold local at 1. simpl.
  unfold bind at 1. erewrite Box_move_Ok by (simpl; eauto). simpl.
  unfold bind at 1. erewrite unwrap_array_Ok by (simpl; apply lookup_insert_eq). simpl.
  unfold Box_dtor, drop. unfold_mem. crunch. do 3 f_equal. same_objs.
Qed.

(** What [x[i]] yields depends on the handle value and on the block it
    points to. *)
Lemma index_local bld (x y : nat) (s1 s2 : state T (Box Array)) bx i r :
  objs s1 !! x = Some bx -> objs s2 !! y = Some bx ->
  heap s2 !! obj bx = heap s1 !! obj bx ->
  index bld x i s1 = Ok (r, s1) -> index bld y i s2 = Ok (r, s2).
Proof.
  destruct s1 as [h1 f1 o1], s2 as [h2 f2 o2]. simpl.
  intros Hx Hy Hh. unfold index, as_ptr, raw_ptr, lvalue.
  unfold_mem. simpl. rewrite Hx, Hy. simpl.
  destruct bld; simpl; destruct (i <? size bx); simpl; try done; rewrite ?Hx, ?Hy; simpl;
  destruct (N.eqb (obj bx) nullptr); simpl; try done;
  destruct (decide (obj bx = nullptr)); simpl; try done;
  rewrite ?Hh;
  destruct (h1 !! obj bx) as [[v0|vs|n0]|] eqn:E; simpl; try done;
  repeat (case_decide; simpl; try done);
  by intros [= ->].
Qed.

Lemma make_boxxed_array_Ok alloc (dflt : T) (this : nat) (count : Z) st p :
  alloc (heap st) = Some p -> objs st !! this = None ->
  make_boxxed_array alloc dflt this count st =
    Ok (tt, mkState (<[p := Block (replicate (Z.to_nat count) dflt)]> (heap st)) (freed st)
              (<[this := mkBox Array p count]> (objs st))).
Proof.
  intros Hp Hthis. destruct st as [h f o]; simpl in *.
  unfold make_boxxed_array, wrap_unchecked_array, Box_from_ptr_len. unfold_mem. simpl.
  rewrite Hp. crunch. reflexivity.
Qed.

(** Reading and assigning one element of a block through [operator[]]. *)
Lemma index_read_Ok bld (this : nat) st p (vs : list T) i v :
  objs st !! this = Some (mkBox Array p (Z.of_nat (Datatypes.length vs))) ->
  p <> nullptr -> heap st !! p = Some (Block vs) ->
  0 <= i -> vs !! Z.to_nat i = Some v ->
  (r <- index bld this i ;; read r) st = Ok (v, st).
Proof.
  intros Hthis Hp Hh Hi Hv. pose proof (lookup_lt_Some _ _ _ Hv) as Hlen.
  pose proof (eqb_nullptr _ Hp) as Hne.
  assert (Hltb : (i <? Z.of_nat (Datatypes.length vs)) = true) by (apply Z.ltb_lt; lia).
  destruct st as [h f o]; simpl in *.
  unfold index, as_ptr, raw_ptr, lvalue, read. unfold_mem.
  destruct bld; crunch; rewrite decide_True by lia; crunch; by rewrite decide_True by lia.
Qed.

Lemma index_write_Ok bld (this : nat) st p (vs : list T) i v :
  objs st !! this = Some (mkBox Array p (Z.of_nat (Datatypes.length vs))) ->
  p <> nullptr -> heap st !! p = Some (Block vs) ->
  0 <= i < Z.of_nat (Datatypes.length vs) ->
  (r <- index bld this i ;; write r v) st =
    Ok (tt, mkState (<[p := Block (<[Z.to_nat i := v]> vs)]> (heap st)) (freed st) (objs st)).
Proof.
  intros Hthis Hp Hh Hi.
  pose proof (eqb_nullptr _ Hp) as Hne.
  assert (Hltb : (i <? Z.of_nat (Datatypes.length vs)) = true) by (apply Z.ltb_lt; lia).
  destruct st as [h f o]; simpl in *.
  unfold index, as_ptr, raw_ptr, lvalue, write. unfold_mem.
  destruct bld; crunch; rewrite decide_True by lia; crunch; by rewrite decide_True by lia.
Qed.

Lemma insert_replicate_boundary (x d : T) (k m : nat) :
  <[k := x]> (replicate k x ++ replicate (S m) d) = replicate (S k) x ++ replicate m d.
Proof. induction k as [|k IH]; simpl; [done|]. f_equal. exact IH. Qed.

(** The loop of [make_boxxed_array(count, from)], [i] elements done. *)
Lemma fill_loop bld w (this : nat) (from dflt : T) p (count : Z) (n fuel : nat) (i : Z)
    (h : gmap N (cell T)) f o :
  o !! this = Some (mkBox Array p count) -> p <> nullptr ->
  0 <= i -> i <= count -> count < 2 ^ w ->
  Z.to_nat (count - i) = n -> (n <= fuel)%nat ->
  for_usize fuel w i count (fun i => r <- index bld this i ;; write r from)
    (mkState (<[p := Block (replicate (Z.to_nat i) from ++ replicate n dflt)]> h) f o) =
  Some (Ok (tt, mkState (<[p := Block (replicate (Z.to_nat count) from)]> h) f o)).
Proof.
  revert fuel i h. induction n as [|n IH]; intros fuel i h Hthis Hp Hi Hic Hc Hn Hfuel.
  - assert (i = count) as -> by lia.
    destruct fuel; simpl; rewrite Z.ltb_irrefl; by rewrite app_nil_r.
  - destruct fuel as [|fuel]; [lia|]. simpl.
    assert (Hltb : (i <? count) = true) by (apply Z.ltb_lt; lia). rewrite Hltb.
    set (vs := replicate (Z.to_nat i) from ++ replicate (S n) dflt).
    assert (Hlen : Z.of_nat (Datatypes.length vs) = count).
    { unfold vs. rewrite length_app, !length_replicate. lia. }
    rewrite (index_write_Ok bld this _ p vs i from); simpl;
      [| by rewrite Hlen | done | apply lookup_insert_eq | lia].
    rewrite insert_insert_eq. unfold vs. rewrite insert_replicate_boundary.
    rewrite Z.mod_small by lia.
    replace (S (Z.to_nat i)) with (Z.to_nat (i + 1)) by lia.
    apply IH; try done; lia.
Qed.
End ArrayFacts.

(** X1.  A scalar owner made from a value ([crab::make_box], or the constructor
    from a value) dereferences to that value, and its destructor gives the
    allocation back: the heap is as before, the log has one more entry.
    When the allocator is exhausted nothing is built. *)
Theorem make_box_then_drop {T} (bld : build) (alloc : gmap N (cell T) -> option N)
    (this : nat) (v : T) (st : state T (Box Single)) :
  allocator alloc ->
  objs st !! this = None ->
  Box_from_value alloc this v st = make_box alloc this v st /\
  match alloc (heap st) with
  | None => make_box alloc this v st = Fault BadAlloc
  | Some p =>
      exists st',
        make_box alloc this v st = Ok (tt, st') /\
        objs st' !! this = Some (mkBox Single p tt) /\
        value bld this st' = Ok (v, st') /\
        Box_dtor this st' = Ok (tt, mkState (heap st) (p :: freed st) (objs st))
  end.
Proof.
  intros Halloc Hthis. split; [reflexivity|].
  destruct (alloc (heap st)) as [p|] eqn:Hp.
  - destruct (Halloc _ _ Hp) as [Hnull Hfresh].
    pose proof (eqb_nullptr _ Hnull) as Hne.
    eexists. split; [by apply make_box_Ok|]. simpl.
    split; [apply lookup_insert_eq|]. destruct st as [h f o]; simpl in *. split.
    + unfold value, deref, as_ptr, raw_ptr, lvalue, read. unfold_mem.
      destruct bld; crunch; done.
    + unfold Box_dtor, drop. unfold_mem. crunch.
      by rewrite !delete_insert_eq, !delete_id.
  - unfold make_box, bind, new_. by rewrite Hp.
Qed.

Lemma make_box_then_drop_witness :
  exists st',
    make_box first_fresh 0 42%nat (mkState ∅ [] ∅) = Ok (tt, st') /\
    value Debug 0 st' = Ok (42%nat, st') /\
    Box_dtor 0 st' = Ok (tt, mkState ∅ [1%N] ∅).
Proof.
  destruct (make_box_then_drop Debug first_fresh 0 42%nat (mkState ∅ [] ∅))
    as [_ (st' & Hmk & _ & Hv & Hd)]; [apply first_fresh_allocator | reflexivity |].
  exists st'. auto.
Defined.

(** X2.  Move-assignment [a = std::move(b)] between two scalar owners: the
    payload [a] held is deallocated, once; [a] takes the address of [b] and
    [b] is left empty, so [a] dereferences to what [b] did.  An empty [a]
    frees nothing. *)
Theorem move_assign_transfers {T} (a b : nat) (st : state T (Box Single)) (pa pb : N) :
  a <> b ->
  objs st !! a = Some (mkBox Single pa tt) ->
  objs st !! b = Some (mkBox Single pb tt) ->
  (pa <> nullptr -> exists c, heap st !! pa = Some c /\ kind_of c = KObject) ->
  exists st',
    move_assign a b st = Ok (tt, st') /\
    objs st' = <[a := mkBox Single pb tt]> (<[b := mkBox Single nullptr tt]> (objs st)) /\
    (pa = nullptr -> heap st' = heap st /\ freed st' = freed st) /\
    (pa <> nullptr -> heap st' = delete pa (heap st) /\ freed st' = pa :: freed st) /\
    (forall bld v, pa <> pb -> value bld b st = Ok (v, st) -> value bld a st' = Ok (v, st')).
Proof.
  intros Hab Ha Hb Hlive.
  destruct (decide (pa = nullptr)) as [->|Hpa].
  - eexists. split; [by apply move_assign_into_empty|]. simpl.
    split; [done|]. split; [done|]. split; [done|].
    intros bld v _ Hv.
    eapply (value_local _ _ b a st); [exact Hb | | | exact Hv]; simpl;
      [apply lookup_insert_eq | done].
  - destruct (Hlive Hpa) as (c & Hc & Hk).
    eexists. split; [by eapply move_assign_Ok|]. simpl.
    split; [done|]. split; [done|]. split; [done|].
    intros bld v Hne Hv.
    eapply (value_local _ _ b a st); [exact Hb | | | exact Hv]; simpl;
      [apply lookup_insert_eq | by rewrite lookup_delete_ne].
Qed.

Lemma move_assign_transfers_witness :
  let st := mkState {[ 5%N := Object 1%nat; 6%N := Object 2%nat ]} []
              {[ 0%nat := mkBox Single 5%N tt; 1%nat := mkBox Single 6%N tt ]} in
  exists st',
    move_assign 0 1 st = Ok (tt, st') /\
    freed st' = [5%N] /\
    value Debug 0 st' = Ok (2%nat, st').
Proof.
  intros st.
  destruct (move_assign_transfers 0 1 st 5%N 6%N)
    as (st' & Hrun & _ & _ & Hfree & Hv); [lia | reflexivity | reflexivity | |].
  - intros _. exists (Object 1%nat). split; reflexivity.
  - exists st'. split; [exact Hrun|]. split.
    + by destruct (Hfree ltac:(discriminate)).
    + apply Hv; [discriminate | vm_compute; reflexivity].
Defined.

(** X3.  Move-assignment from an owner of a derived type,
    [operator=(Box<Derived>&&)], ends in the state the same-type
    move-assignment ends in, when the source is non-empty or the build is a
    release build.  With an empty source a debug build stops at the
    assertion of [raw_ptr], inside [unwrap]; the same-type assignment has no
    such check.  [drop()] on the destination comes before that check: where
    the destination holds an address that is not allocated, the invalid
    [delete] is the outcome in either build, also with an empty source in a
    debug build, as it is for the same-type assignment. *)
Theorem move_assign_derived_as_move_assign {T} (a b : nat) (st : state T (Box Single))
    (pa pb : N) :
  a <> b ->
  objs st !! a = Some (mkBox Single pa tt) ->
  objs st !! b = Some (mkBox Single pb tt) ->
  ((pa <> nullptr -> exists c, heap st !! pa = Some c /\ kind_of c = KObject) ->
     (exists st', move_assign a b st = Ok (tt, st') /\
        forall bld, pb <> nullptr \/ bld = Release ->
          move_assign_derived bld a b st = Ok (tt, st')) /\
     (pb = nullptr ->
        move_assign_derived Debug a b st =
          Fault (AssertionFailure "Invalid Use of Moved Box<T>."))) /\
  (pa <> nullptr -> heap st !! pa = None ->
     move_assign a b st = Fault (UndefinedBehaviour InvalidFree) /\
     forall bld, move_assign_derived bld a b st = Fault (UndefinedBehaviour InvalidFree)).
Proof.
  intros Hab Ha Hb. split.
  - intros Hlive.
    destruct (drop_either a st pa Ha Hlive) as (hp & fr & Hdrop & _). split.
    + eexists. split; [by eapply move_assign_after_drop|].
      intros bld Hcase. by eapply move_assign_derived_after_drop.
    + intros ->. unfold move_assign_derived. erewrite bind_Ok by exact Hdrop.
      destruct (unwrap_empty_debug b (mkState hp fr (objs st)) Hb) as [Hun _].
      unfold bind. by rewrite Hun.
  - intros Hpa Hgone.
    assert (Hdrop : drop (sh:=Single) a st = Fault (UndefinedBehaviour InvalidFree)).
    { unfold drop, load, delete_, bind. rewrite Ha. simpl.
      rewrite decide_False by done. by rewrite Hgone. }
    split; [|intros bld].
    + unfold move_assign, bind. by rewrite Hdrop.
    + unfold move_assign_derived, bind. by rewrite Hdrop.
Qed.

Lemma move_assign_derived_as_move_assign_witness :
  let st := mkState {[ 5%N := Object 1%nat; 6%N := Object 2%nat ]} []
              {[ 0%nat := mkBox Single 5%N tt; 1%nat := mkBox Single 6%N tt ]} in
  (exists st',
     move_assign 0 1 st = Ok (tt, st') /\ move_assign_derived Debug 0 1 st = Ok (tt, st')) /\
  move_assign_derived Debug 0 1
    (mkState (T:=nat) ∅ [] {[ 0%nat := mkBox Single 5%N tt; 1%nat := mkBox Single nullptr tt ]}) =
    Fault (UndefinedBehaviour InvalidFree).
Proof.
  intros st. split.
  - destruct (move_assign_derived_as_move_assign 0 1 st 5%N 6%N)
      as [Hlive _]; [lia | reflexivity | reflexivity |].
    destruct Hlive as [(st' & Hm & Hd) _].
    + intros _. exists (Object 1%nat). split; reflexivity.
    + exists st'. split; [exact Hm|]. apply Hd. left. discriminate.
  - destruct (move_assign_derived_as_move_assign 0 1
                (mkState (T:=nat) ∅ [] {[ 0%nat := mkBox Single 5%N tt; 1%nat := mkBox Single nullptr tt ]})
                5%N nullptr)
      as [_ Hgone]; [lia | reflexivity | reflexivity |].
    destruct Hgone as [_ Hd]; [discriminate | reflexivity |]. apply Hd.
Defined.

(** X4.  Releasing an empty scalar owner ([Box::unwrap], [crab::release]): a debug
    build stops at the assertion of [raw_ptr]; a release build returns
    nullptr and changes nothing. *)
Theorem release_of_empty_Box {T} (a : nat) (st : state T (Box Single)) :
  objs st !! a = Some (mkBox Single nullptr tt) ->
  unwrap Debug a st = Fault (AssertionFailure "Invalid Use of Moved Box<T>.") /\
  release Debug a st = Fault (AssertionFailure "Invalid Use of Moved Box<T>.") /\
  unwrap Release a st = Ok (nullptr, st) /\
  release Release a st = Ok (nullptr, st).
Proof.
  intros Ha. destruct (unwrap_empty_debug a st Ha). destruct (unwrap_empty_release a st Ha).
  done.
Qed.

Lemma release_of_empty_Box_witness :
  let st := mkState (T:=nat) ∅ [] {[ 0%nat := mkBox Single nullptr tt ]} in
  release Debug 0 st = Fault (AssertionFailure "Invalid Use of Moved Box<T>.") /\
  release Release 0 st = Ok (nullptr, st).
Proof.
  intros st. destruct (release_of_empty_Box 0 st eq_refl) as (_ & Hd & _ & Hr). auto.
Defined.

(** The body of [operator=(Box rhs) requires IS_ARRAY], run with the owner
    itself as argument: the parameter is taken by value, so the allocation
    waits in it while [drop()] runs on the emptied owner, and the state
    afterwards is the state before.  This describes the body only: beside
    the deleted [operator=(const Box&)] an assignment expression between
    array owners has two exact matches and selects neither, so no caller
    reaches this body through [a = std::move(b)]. *)
Lemma array_self_move_assign_is_identity {T} (a : nat) (st : state T (Box Array))
    (bx : Box Array) :
  objs st !! a = Some bx ->
  move_assign_array a a st = Ok (tt, st).
Proof. destruct bx as [p n]. apply move_assign_array_self. Qed.

Lemma array_self_move_assign_is_identity_witness :
  let st := mkState {[ 5%N := Block [1; 2; 3]%nat ]} [] {[ 0%nat := mkBox Array 5%N 3 ]} in
  move_assign_array 0 0 st = Ok (tt, st).
Proof.
  intros st. apply (array_self_move_assign_is_identity 0 st (mkBox Array 5%N 3)). reflexivity.
Defined.

(** The body of [operator=(Box rhs) requires IS_ARRAY] between two owners: the
    block [a] held is deallocated with [delete[]], once; [a] takes the block
    and the length of [b]; [b] is left empty with length 0; the by-value
    parameter is gone.  As for the lemma before, this describes the body
    only. *)
Lemma array_move_assign_transfers {T} (a b : nat) (st : state T (Box Array))
    (pa pb : N) (na nb : Z) :
  a <> b ->
  objs st !! a = Some (mkBox Array pa na) ->
  objs st !! b = Some (mkBox Array pb nb) ->
  (pa <> nullptr -> exists vs, heap st !! pa = Some (Block vs)) ->
  exists st',
    move_assign_array a b st = Ok (tt, st') /\
    objs st' = <[a := mkBox Array pb nb]> (<[b := mkBox Array nullptr 0]> (objs st)) /\
    (pa = nullptr -> heap st' = heap st /\ freed st' = freed st) /\
    (pa <> nullptr -> heap st' = delete pa (heap st) /\ freed st' = pa :: freed st) /\
    (forall bld i r, pa <> pb -> index bld b i st = Ok (r, st) -> index bld a i st' = Ok (r, st')).
Proof.
  intros Hab Ha Hb Hlive.
  destruct (decide (pa = nullptr)) as [->|Hpa].
  - eexists. split; [by eapply move_assign_array_empty|]. simpl.
    split; [done|]. split; [done|]. split; [done|].
    intros bld i r _ Hi.
    eapply (index_local _ b a st); [exact Hb | | | exact Hi]; simpl;
      [apply lookup_insert_eq | done].
  - destruct (Hlive Hpa) as (vs & Hvs).
    eexists. split; [by eapply move_assign_array_live|]. simpl.
    split; [done|]. split; [done|]. split; [done|].
    intros bld i r Hne Hi.
    eapply (index_local _ b a st); [exact Hb | | | exact Hi]; simpl;
      [apply lookup_insert_eq | by rewrite lookup_delete_ne].
Qed.

Lemma array_move_assign_transfers_witness :
  let st := mkState {[ 5%N := Block [1; 2]%nat; 6%N := Block [7; 8; 9]%nat ]} []
              {[ 0%nat := mkBox Array 5%N 2; 1%nat := mkBox Array 6%N 3 ]} in
  exists st',
    move_assign_array 0 1 st = Ok (tt, st') /\
    freed st' = [5%N] /\
    index Debug 0 2 st' = Ok (mkPlace 6 2, st').
Proof.
  intros st.
  destruct (array_move_assign_transfers 0 1 st 5%N 6%N 2 3)
    as (st' & Hrun & _ & _ & Hfree & Hi); [lia | reflexivity | reflexivity | |].
  - intros _. exists [1; 2]%nat. reflexivity.
  - exists st'. split; [exact Hrun|]. split.
    + by destruct (Hfree ltac:(discriminate)).
    + apply Hi; [discriminate | vm_compute; reflexivity].
Defined.

(** X5.  Round trip for the array shape: [Box::unwrap] and [crab::release] return
    the address and the length without touching the heap and leave the
    source empty with length 0; they check nothing, so an empty owner gives
    back nullptr in either build.  [wrap_unchecked] of the pair builds an
    owner with the handle value the source had. *)
Theorem array_release_then_wrap_is_identity {T} (a c : nat) (st : state T (Box Array))
    (bx : Box Array) :
  objs st !! a = Some bx ->
  objs st !! c = None ->
  forall rel, rel = unwrap_array \/ rel = release_array ->
  exists st1 st2,
    rel a st = Ok ((obj bx, size bx), st1) /\
    heap st1 = heap st /\ freed st1 = freed st /\
    objs st1 !! a = Some (mkBox Array nullptr 0) /\
    wrap_unchecked_array c (obj bx) (size bx) st1 = Ok (tt, st2) /\
    heap st2 = heap st /\ freed st2 = freed st /\
    objs st2 !! c = Some bx.
Proof.
  intros Ha Hc rel Hrel. destruct bx as [p n]. assert (a <> c) by congruence.
  eexists _, _. split.
  { destruct Hrel as [-> | ->]; [by apply unwrap_array_Ok | by apply release_array_Ok]. }
  simpl. split; [done|]. split; [done|]. split; [apply lookup_insert_eq|]. split.
  { unfold wrap_unchecked_array, Box_from_ptr_len. apply begin_lifetime_Ok. simpl.
    by rewrite lookup_insert_ne. }
  simpl. split; [done|]. split; [done|]. apply lookup_insert_eq.
Qed.

Lemma array_release_then_wrap_is_identity_witness :
  let st := mkState {[ 5%N := Block [1; 2; 3]%nat ]} [] {[ 0%nat := mkBox Array 5%N 3 ]} in
  exists st1 st2,
    release_array 0 st = Ok ((5%N, 3), st1) /\
    wrap_unchecked_array 1 5%N 3 st1 = Ok (tt, st2) /\
    objs st2 !! 1%nat = Some (mkBox Array 5%N 3).
Proof.
  intros st.
  destruct (array_release_then_wrap_is_identity 0 1 st (mkBox Array 5%N 3)
              eq_refl eq_refl release_array (or_intror eq_refl))
    as (st1 & st2 & Hrel & _ & _ & _ & Hwrap & _ & _ & Hc).
  exists st1, st2. auto.
Defined.

(** X6.  A moved-from array owner has length 0, so in a debug build every index
    into it stops at "Index out of Bounds", before [raw_ptr] is asked; the
    owner it was moved into has the length and answers every index as the
    source did. *)
Theorem moved_from_array_has_length_zero {T} (a b : nat) (st : state T (Box Array))
    (bx : Box Array) :
  objs st !! a = Some bx -> objs st !! b = None ->
  exists st',
    Box_move Array b a st = Ok (tt, st') /\
    box.length a st' = Ok (0, st') /\
    box.length b st' = Ok (size bx, st') /\
    (forall i, 0 <= i -> index Debug a i st' = Fault (AssertionFailure "Index out of Bounds")) /\
    (forall bld i r, index bld a i st = Ok (r, st) -> index bld b i st' = Ok (r, st')).
Proof.
  intros Ha Hb. assert (a <> b) by congruence.
  eexists. split; [by apply Box_move_Ok|].
  destruct st as [h f o]; simpl in *. split; [|split; [|split]].
  - unfold box.length. unfold_mem. crunch. reflexivity.
  - unfold box.length. unfold_mem. crunch. reflexivity.
  - intros i Hi. unfold index. unfold_mem. crunch.
    assert (Hltb : (i <? 0) = false) by (apply Z.ltb_ge; lia). by rewrite Hltb.
  - intros bld i r Hidx.
    eapply (index_local _ a b (mkState h f o)); [exact Ha | | | exact Hidx]; simpl;
      [apply lookup_insert_eq | done].
Qed.

Lemma moved_from_array_has_length_zero_witness :
  let st := mkState {[ 5%N := Block [1; 2; 3]%nat ]} [] {[ 0%nat := mkBox Array 5%N 3 ]} in
  exists st',
    Box_move Array 1 0 st = Ok (tt, st') /\
    box.length 0 st' = Ok (0, st') /\
    index Debug 0 0 st' = Fault (AssertionFailure "Index out of Bounds") /\
    index Debug 1 2 st' = Ok (mkPlace 5 2, st').
Proof.
  intros st.
  destruct (moved_from_array_has_length_zero 0 1 st (mkBox Array 5%N 3) eq_refl eq_refl)
    as (st' & Hrun & Hlen & _ & Hout & Hin).
  exists st'. split; [exact Hrun|]. split; [exact Hlen|]. split.
  - apply Hout. lia.
  - apply Hin. vm_compute. reflexivity.
Defined.

(** X7.  [crab::make_boxxed_array<T>(count)]: an owner of a fresh block of [count]
    value-initialised elements.  Its length is [count], every index below
    [count] reads the default value, and its destructor gives the block
    back with [delete[]].  When the allocator is exhausted nothing is
    built. *)
Theorem make_boxxed_array_holds_defaults {T} (bld : build)
    (alloc : gmap N (cell T) -> option N) (dflt : T) (this : nat) (count : Z)
    (st : state T (Box Array)) :
  allocator alloc ->
  objs st !! this = None ->
  0 <= count ->
  match alloc (heap st) with
  | None => make_boxxed_array alloc dflt this count st = Fault BadAlloc
  | Some p =>
      exists st',
        make_boxxed_array alloc dflt this count st = Ok (tt, st') /\
        box.length this st' = Ok (count, st') /\
        (forall i, 0 <= i < count ->
           (r <- index bld this i ;; read r) st' = Ok (dflt, st')) /\
        Box_dtor this st' = Ok (tt, mkState (heap st) (p :: freed st) (objs st))
  end.
Proof.
  intros Halloc Hthis Hcount.
  destruct (alloc (heap st)) as [p|] eqn:Hp.
  - destruct (Halloc _ _ Hp) as [Hnull Hfresh].
    eexists. split; [by apply make_boxxed_array_Ok|].
    destruct st as [h f o]; simpl in *. split; [|split].
    + unfold box.length. unfold_mem. crunch. reflexivity.
    + intros i Hi.
      apply (index_read_Ok bld this _ p (replicate (Z.to_nat count) dflt)); simpl.
      * rewrite length_replicate, Z2Nat.id by done. apply lookup_insert_eq.
      * done.
      * apply lookup_insert_eq.
      * lia.
      * apply lookup_replicate_2. lia.
    + unfold Box_dtor, drop. unfold_mem. crunch.
      by rewrite !delete_insert_eq, !delete_id.
  - unfold make_boxxed_array, bind, new_. by rewrite Hp.
Qed.

Lemma make_boxxed_array_holds_defaults_witness :
  exists st',
    make_boxxed_array first_fresh 0%nat 0 3 (mkState ∅ [] ∅) = Ok (tt, st') /\
    box.length 0 st' = Ok (3, st') /\
    (r <- index Debug 0 2 ;; read r) st' = Ok (0%nat, st') /\
    Box_dtor 0 st' = Ok (tt, mkState ∅ [1%N] ∅).
Proof.
  destruct (make_boxxed_array_holds_defaults Debug first_fresh 0%nat 0 3 (mkState ∅ [] ∅))
    as (st' & Hmk & Hlen & Hidx & Hd); [apply first_fresh_allocator | reflexivity | lia |].
  exists st'. split; [exact Hmk|]. split; [exact Hlen|]. split; [|exact Hd].
  apply Hidx. lia.
Defined.

(** X8.  [crab::make_boxxed_array<T>(count, from)]: the loop ends within [count]
    iterations and the owner holds a block of [count] copies of [from], in
    either build and whatever the default value is. *)
Theorem make_boxxed_array_from_fills {T} (bld : build) (w : Z)
    (alloc : gmap N (cell T) -> option N) (dflt from : T) (this : nat) (count : Z)
    (fuel : nat) (st : state T (Box Array)) (p : N) :
  allocator alloc ->
  objs st !! this = None ->
  0 <= count -> count < 2 ^ w ->
  (Z.to_nat count <= fuel)%nat ->
  alloc (heap st) = Some p ->
  make_boxxed_array_from bld fuel w alloc dflt this count from st =
    Some (Ok (tt, mkState (<[p := Block (replicate (Z.to_nat count) from)]> (heap st))
                    (freed st) (<[this := mkBox Array p count]> (objs st)))).
Proof.
  intros Halloc Hthis Hcount Hw Hfuel Hp.
  destruct (Halloc _ _ Hp) as [Hnull Hfresh].
  unfold make_boxxed_array_from. rewrite (make_boxxed_array_Ok alloc dflt this count st p) by done.
  pose proof (fill_loop bld w this from dflt p count (Z.to_nat count) fuel 0
                (heap st) (freed st) (<[this := mkBox Array p count]> (objs st))) as Hloop.
  simpl in Hloop.
  apply Hloop; try done; try lia. apply lookup_insert_eq.
Qed.

Lemma make_boxxed_array_from_fills_witness :
  make_boxxed_array_from Debug 5 64 first_fresh 0%nat 0 3 7%nat (mkState ∅ [] ∅) =
    Some (Ok (tt, mkState {[ 1%N := Block [7; 7; 7]%nat ]} [] {[ 0%nat := mkBox Array 1%N 3 ]})).
Proof.
  apply (make_boxxed_array_from_fills Debug 64 first_fresh 0%nat 7%nat 0 3 5 (mkState ∅ [] ∅) 1%N);
    [apply first_fresh_allocator | reflexivity | lia | reflexivity | simpl; lia | reflexivity].
Defined.
End BoxMore.

(** ** Exclusive ownership as an invariant *)
Module BoxOwnership.
Import box BoxSpec BoxMore.

Section Ownership.
Context {T : Type}.
Implicit Types st : state T (Box Single).
Implicit Types h : gmap N (cell T).
Implicit Types o : gmap nat (Box Single).

Abbreviation empty_box := (mkBox Single nullptr tt).

Lemma owns_alloc h f f' o x p v :
  owns (mkState h f o) -> h !! p = None ->
  owns (mkState (<[p := Object v]> h) f' (<[x := mkBox Single p tt]> o)).
Proof.
  intros Hown Hp y bx Hy Hnn. simpl in *.
  rewrite lookup_insert in Hy. case_decide as Hxy.
  - simplify_eq. simpl. split; [exists v; apply lookup_insert_eq|].
    intros z bz Hz Hobj. rewrite lookup_insert in Hz. case_decide; [done|].
    destruct (Hown z bz Hz) as [[v' Hv'] _]; [by rewrite Hobj|].
    rewrite Hobj in Hv'. simpl in *. by rewrite Hp in Hv'.
  - destruct (Hown y bx Hy Hnn) as [[v' Hv'] Huniq]. simpl in *. split.
    + exists v'. rewrite lookup_insert_ne; [done|]. intros ->. by rewrite Hp in Hv'.
    + intros z bz Hz Hobj. rewrite lookup_insert in Hz. case_decide; [|by eapply Huniq].
      simplify_eq. simpl in *. congruence.
Qed.

Lemma owns_wrap h f f' o x p :
  owns (mkState h f o) ->
  p = nullptr \/ ((exists v, h !! p = Some (Object v)) /\
                  forall y bx, o !! y = Some bx -> obj bx <> p) ->
  owns (mkState h f' (<[x := mkBox Single p tt]> o)).
Proof.
  intros Hown Hp y bx Hy Hnn. simpl in *.
  rewrite lookup_insert in Hy. case_decide as Hxy.
  - simplify_eq. simpl in *. destruct Hp as [->|[Hlive Hfree]]; [done|].
    split; [done|]. intros z bz Hz Hobj. rewrite lookup_insert in Hz.
    case_decide; [done|]. by destruct (Hfree z bz Hz).
  - destruct (Hown y bx Hy Hnn) as [Hlive Huniq]. simpl in *. split; [done|].
    intros z bz Hz Hobj. rewrite lookup_insert in Hz. case_decide; [|by eapply Huniq].
    simplify_eq. simpl in *. destruct Hp as [->|[_ Hfree]]; [congruence|].
    by destruct (Hfree y bx Hy).
Qed.

Lemma owns_empty h f f' o x :
  owns (mkState h f o) -> owns (mkState h f' (<[x := empty_box]> o)).
Proof. intros Hown. apply (owns_wrap h f f' o x nullptr Hown). by left. Qed.

Lemma owns_delete h f f' o x :
  owns (mkState h f o) -> owns (mkState h f' (delete x o)).
Proof.
  intros Hown y bx Hy Hnn. simpl in *.
  rewrite lookup_delete in Hy. case_decide; [done|].
  destruct (Hown y bx Hy Hnn) as [Hlive Huniq]. simpl in *. split; [done|].
  intros z bz Hz Hobj. rewrite lookup_delete in Hz. case_decide; [done|]. by eapply Huniq.
Qed.

(** Moving the address from [a] to an owner [b] that is dead or empty. *)
Lemma owns_transfer h f f' o a b bx :
  owns (mkState h f o) -> o !! a = Some bx -> a <> b ->
  (forall bb, o !! b = Some bb -> obj bb = nullptr) ->
  owns (mkState h f' (<[b := bx]> (<[a := empty_box]> o))).
Proof.
  intros Hown Ha Hab Hb y by_ Hy Hnn. simpl in *.
  destruct (decide (y = b)) as [->|Hyb].
  - rewrite lookup_insert_eq in Hy. injection Hy as <-.
    destruct (Hown a bx Ha Hnn) as [Hlive Huniq]. simpl in *. split; [done|].
    intros z bz Hz Hobj. destruct (decide (z = b)) as [->|Hzb]; [done|].
    rewrite lookup_insert_ne in Hz by done.
    destruct (decide (z = a)) as [->|Hza].
    + rewrite lookup_insert_eq in Hz. injection Hz as <-. simpl in Hobj. congruence.
    + rewrite lookup_insert_ne in Hz by done. by destruct (Hza (Huniq z bz Hz Hobj)).
  - rewrite lookup_insert_ne in Hy by done.
    destruct (decide (y = a)) as [->|Hya].
    { rewrite lookup_insert_eq in Hy. injection Hy as <-. done. }
    rewrite lookup_insert_ne in Hy by done.
    destruct (Hown y by_ Hy Hnn) as [Hlive Huniq]. simpl in *. split; [done|].
    intros z bz Hz Hobj. destruct (decide (z = b)) as [->|Hzb].
    + rewrite lookup_insert_eq in Hz. injection Hz as <-.
      by destruct (Hya (eq_sym (Huniq a bx Ha Hobj))).
    + rewrite lookup_insert_ne in Hz by done.
      destruct (decide (z = a)) as [->|Hza].
      * rewrite lookup_insert_eq in Hz. injection Hz as <-. simpl in Hobj. congruence.
      * rewrite lookup_insert_ne in Hz by done. by eapply Huniq.
Qed.

(** Freeing what [a] holds and emptying [a]. *)
Lemma owns_free h f f' o a bx :
  owns (mkState h f o) -> o !! a = Some bx -> obj bx <> nullptr ->
  owns (mkState (delete (obj bx) h) f' (<[a := empty_box]> o)).
Proof.
  intros Hown Ha Hpa y by_ Hy Hnn. simpl in *.
  destruct (decide (y = a)) as [->|Hya].
  { rewrite lookup_insert_eq in Hy. injection Hy as <-. done. }
  rewrite lookup_insert_ne in Hy by done.
  destruct (Hown y by_ Hy Hnn) as [[v Hv] Huniq].
  destruct (Hown a bx Ha Hpa) as [_ Huniqa]. simpl in *. split.
  - exists v. rewrite lookup_delete_ne; [done|]. intros E.
    by destruct (Hya (Huniqa y by_ Hy (eq_sym E))).
  - intros z bz Hz Hobj. destruct (decide (z = a)) as [->|Hza].
    + rewrite lookup_insert_eq in Hz. injection Hz as <-. simpl in Hobj. congruence.
    + rewrite lookup_insert_ne in Hz by done. by eapply Huniq.
Qed.

(** *** What each operation does when it returns *)

Lemma make_box_inv alloc this v st st' :
  allocator alloc -> make_box alloc this v st = Ok (tt, st') ->
  exists p, heap st !! p = None /\
    st' = mkState (<[p := Object v]> (heap st)) (freed st)
            (<[this := mkBox Single p tt]> (objs st)).
Proof.
  intros Halloc. destruct st as [h f o]; simpl.
  unfold make_box, wrap_unchecked, Box_from_ptr. unfold_mem. simpl.
  destruct (alloc h) as [p|] eqn:Hp; [|done]. simpl.
  destruct (o !! this); [done|]. intros [= <-].
  exists p. split; [|done]. by destruct (Halloc _ _ Hp).
Qed.

Lemma wrap_unchecked_inv this p st st' :
  wrap_unchecked this p st = Ok (tt, st') ->
  st' = mkState (heap st) (freed st) (<[this := mkBox Single p tt]> (objs st)).
Proof.
  destruct st as [h f o]; simpl.
  unfold wrap_unchecked, Box_from_ptr. unfold_mem. simpl.
  destruct (o !! this); [done|]. by intros [= <-].
Qed.

Lemma Box_move_inv this from st st' :
  Box_move Single this from st = Ok (tt, st') ->
  exists bx, objs st !! from = Some bx /\ this <> from /\ objs st !! this = None /\
    st' = mkState (heap st) (freed st) (<[this := bx]> (<[from := empty_box]> (objs st))).
Proof.
  destruct st as [h f o]; simpl.
  destruct (o !! from) as [bx|] eqn:Hfrom;
    [|unfold Box_move, exchange_obj; unfold_mem; crunch; done].
  destruct (decide (this = from)) as [->|Hne].
  { unfold Box_move, exchange_obj, exchange_size. unfold_mem. crunch. done. }
  destruct (o !! this) as [b|] eqn:Hthis.
  { unfold Box_move, exchange_obj, exchange_size. unfold_mem. crunch. done. }
  rewrite (Box_move_Ok Single from this (mkState h f o) bx) by done. intros [= <-].
  by exists bx.
Qed.

Lemma Box_from_derived_inv bld this from st st' :
  Box_from_derived bld this from st = Ok (tt, st') ->
  exists bx, objs st !! from = Some bx /\ this <> from /\ objs st !! this = None /\
    st' = mkState (heap st) (freed st) (<[this := bx]> (<[from := empty_box]> (objs st))).
Proof.
  destruct st as [h f o]; simpl.
  destruct (o !! from) as [[p []]|] eqn:Hfrom;
    [|unfold Box_from_derived, __release_for_derived, exchange_obj; unfold_mem; crunch; done].
  destruct (decide (this = from)) as [->|Hne].
  { unfold Box_from_derived, __release_for_derived, Box_from_ptr, exchange_obj.
    unfold_mem. crunch. done. }
  destruct (o !! this) as [b|] eqn:Hthis.
  { unfold Box_from_derived, __release_for_derived, Box_from_ptr, exchange_obj.
    unfold_mem. crunch. done. }
  unfold Box_from_derived, __release_for_derived, Box_from_ptr, exchange_obj.
  unfold_mem. crunch.
  destruct bld; simpl; [destruct (negb (p =? nullptr)%N); simpl; [|done]|];
    intros [= <-]; by eexists.
Qed.

Lemma drop_inv x st st' :
  drop x st = Ok (tt, st') ->
  exists bx, objs st !! x = Some bx /\
    (obj bx = nullptr /\ st' = st \/
     obj bx <> nullptr /\
     st' = mkState (delete (obj bx) (heap st)) (obj bx :: freed st) (objs st)).
Proof.
  destruct st as [h f o]; simpl.
  destruct (o !! x) as [bx|] eqn:Hx; [|unfold drop; unfold_mem; crunch; done].
  unfold drop. unfold_mem. crunch.
  destruct (decide (obj bx = nullptr)) as [Hp|Hp]; simpl.
  - intros [= <-]. exists bx. split; [done|]. by left.
  - destruct (h !! obj bx) as [c|]; [|done]. case_decide; [|done].
    intros [= <-]. exists bx. split; [done|]. by right.
Qed.

Lemma unwrap_inv bld a st p st' :
  unwrap bld a st = Ok (p, st') ->
  exists bx, objs st !! a = Some bx /\ p = obj bx /\
    st' = mkState (heap st) (freed st) (<[a := empty_box]> (objs st)).
Proof.
  destruct (objs st !! a) as [[q []]|] eqn:Ha.
  - destruct (decide (q = nullptr)) as [->|Hq].
    + destruct bld.
      * by rewrite (unwrap_empty_aborts a st Ha).
      * destruct (unwrap_empty_release a st Ha) as [-> _]. intros [= <- <-].
        eexists. split; [done|]. split; [done|]. destruct st as [h f o]; simpl in *.
        by rewrite insert_id.
    + rewrite (unwrap_Ok bld a st q Ha Hq). intros [= <- <-]. by eexists.
  - destruct st as [h f o]; simpl in *.
    unfold unwrap, Box_move, exchange_obj. unfold_mem. simpl.
    pose proof (local_fresh o). crunch. done.
Qed.

Lemma release_inv bld a st p st' :
  release bld a st = Ok (p, st') ->
  exists bx, objs st !! a = Some bx /\ p = obj bx /\
    st' = mkState (heap st) (freed st) (<[a := empty_box]> (objs st)).
Proof.
  destruct (objs st !! a) as [[q []]|] eqn:Ha.
  - destruct (decide (q = nullptr)) as [->|Hq].
    + destruct bld.
      * destruct (unwrap_empty_debug a st Ha) as [_ ->]. done.
      * destruct (unwrap_empty_release a st Ha) as [_ ->]. intros [= <- <-].
        eexists. split; [done|]. split; [done|]. destruct st as [h f o]; simpl in *.
        by rewrite insert_id.
    + rewrite (release_Ok bld a st q Ha Hq). intros [= <- <-]. by eexists.
  - destruct st as [h f o]; simpl in *.
    unfold release, Box_move, exchange_obj. unfold_mem. simpl.
    pose proof (local_fresh o). crunch. done.
Qed.

Lemma value_inv bld x st v st' : value bld x st = Ok (v, st') -> st' = st.
Proof.
  destruct st as [h f o]; simpl.
  unfold value, deref, as_ptr, raw_ptr, lvalue, read. unfold_mem. simpl.
  destruct (o !! x) as [bx|]; simpl; [|done].
  destruct bld; simpl; repeat (case_match; simpl; try done).
  all: intros; by simplify_eq.
Qed.

Lemma set_obj_inv this p st st' :
  set_obj this p st = Ok (tt, st') ->
  is_Some (objs st !! this) /\
  st' = mkState (heap st) (freed st) (<[this := mkBox Single p tt]> (objs st)).
Proof.
  destruct st as [h f o]; simpl. unfold set_obj. unfold_mem. simpl.
  destruct (o !! this) as [[q []]|] eqn:Hthis; simpl; [|done].
  rewrite Hthis. intros [= <-]. eauto.
Qed.

Lemma exchange_obj_inv x st p st' :
  exchange_obj x nullptr st = Ok (p, st') ->
  exists bx, objs st !! x = Some bx /\ p = obj bx /\
    st' = mkState (heap st) (freed st) (<[x := empty_box]> (objs st)).
Proof.
  destruct st as [h f o]; simpl. unfold exchange_obj. unfold_mem. simpl.
  destruct (o !! x) as [[q []]|] eqn:Hx; simpl; [|done].
  rewrite Hx. intros [= <- <-]. by eexists.
Qed.

Lemma end_lifetime_inv x st st' :
  end_lifetime x st = Ok (tt, st') ->
  st' = mkState (heap st) (freed st) (delete x (objs st)).
Proof. unfold end_lifetime. destruct (objs st !! x); [|done]. by intros [= <-]. Qed.

(** The state after either move-assignment keeps the invariant. *)
Lemma owns_assigned h f f' o this rhs b1 b2 st1 :
  owns (mkState h f o) -> this <> rhs ->
  o !! this = Some b1 -> o !! rhs = Some b2 ->
  (obj b1 = nullptr /\ st1 = mkState h f o \/
   obj b1 <> nullptr /\ st1 = mkState (delete (obj b1) h) (obj b1 :: f) o) ->
  owns (mkState (heap st1) f' (<[this := b2]> (<[rhs := empty_box]> o))).
Proof.
  intros Hown Hne Hthis Hrhs [[Hnull ->] | [Hlive ->]]; simpl.
  - apply (owns_transfer h f f' o rhs this b2); try done.
    intros bb Hbb. by simplify_eq.
  - pose proof (owns_free h f f' o this b1 Hown Hthis Hlive) as Hfree.
    pose proof (owns_transfer _ f' f' _ rhs this b2 Hfree) as Htr.
    rewrite (insert_insert_ne o), insert_insert_eq in Htr by done.
    apply Htr; [by rewrite lookup_insert_ne | done |].
    intros bb. rewrite lookup_insert_eq. by intros [= <-].
Qed.

(** Every operation keeps exclusive ownership, whenever it returns. *)
Lemma run_op_owns bld alloc (o : op T) st st' :
  allocator alloc -> within_contract st o -> owns st ->
  run_op bld alloc o st = Ok (tt, st') -> owns st'.
Proof.
  intros Halloc Hc Hown Hrun. destruct st as [h f ob].
  destruct o as [this v|this v|this ref|this from|this from|this rhs|this rhs|a|a|this|this];
    simpl in Hrun, Hc.
  - apply make_box_inv in Hrun as (p & Hp & ->); [|done]. by eapply owns_alloc.
  - apply (make_box_inv alloc this v) in Hrun as (p & Hp & ->); [|done]. by eapply owns_alloc.
  - apply wrap_unchecked_inv in Hrun as ->. by eapply owns_wrap.
  - apply Box_move_inv in Hrun as (bx & Hfrom & Hne & Hthis & ->). simpl in *.
    eapply owns_transfer; eauto. intros bb Hbb. by simplify_eq.
  - apply Box_from_derived_inv in Hrun as (bx & Hfrom & Hne & Hthis & ->). simpl in *.
    eapply owns_transfer; eauto. intros bb Hbb. by simplify_eq.
  - unfold move_assign in Hrun.
    apply bind_inv in Hrun as ([] & s1 & Hdrop & Hrun).
    apply drop_inv in Hdrop as (b1 & Hthis & Hcase). simpl in *.
    apply bind_inv in Hrun as (p & s2 & Hex & Hset).
    apply exchange_obj_inv in Hex as (b2 & Hrhs & -> & ->).
    apply set_obj_inv in Hset as [_ ->]. simpl.
    assert (Hobjs : objs s1 = ob) by (by destruct Hcase as [[_ ->] | [_ ->]]).
    rewrite Hobjs in *. destruct b2 as [p2 []].
    eapply (owns_assigned h f (freed s1) ob this rhs b1 (mkBox Single p2 tt) s1); eauto.
  - unfold move_assign_derived in Hrun.
    apply bind_inv in Hrun as ([] & s1 & Hdrop & Hrun).
    apply drop_inv in Hdrop as (b1 & Hthis & Hcase). simpl in *.
    apply bind_inv in Hrun as (p & s2 & Hun & Hset).
    apply unwrap_inv in Hun as (b2 & Hrhs & -> & ->).
    apply set_obj_inv in Hset as [_ ->]. simpl.
    assert (Hobjs : objs s1 = ob) by (by destruct Hcase as [[_ ->] | [_ ->]]).
    rewrite Hobjs in *. destruct b2 as [p2 []].
    eapply (owns_assigned h f (freed s1) ob this rhs b1 (mkBox Single p2 tt) s1); eauto.
  - apply bind_inv in Hrun as (p & s1 & Hun & Hret).
    apply unwrap_inv in Hun as (bx & Ha & -> & ->). injection Hret as <-.
    by eapply owns_empty.
  - apply bind_inv in Hrun as (p & s1 & Hun & Hret).
    apply release_inv in Hun as (bx & Ha & -> & ->). injection Hret as <-.
    by eapply owns_empty.
  - apply bind_inv in Hrun as (v & s1 & Hv & Hret).
    apply value_inv in Hv as ->. by injection Hret as <-.
  - unfold Box_dtor in Hrun.
    apply bind_inv in Hrun as ([] & s1 & Hdrop & Hend).
    apply drop_inv in Hdrop as (b1 & Hthis & Hcase). simpl in *.
    apply end_lifetime_inv in Hend as ->.
    destruct Hcase as [[_ ->] | [Hlive ->]]; simpl.
    + by eapply owns_delete.
    + pose proof (owns_free h f f ob this b1 Hown Hthis Hlive) as Hfree.
      pose proof (owns_delete _ f (obj b1 :: f) _ this Hfree) as Hdel.
      by rewrite delete_insert_eq in Hdel.
Qed.
End Ownership.

Lemma reachable_owns {T} (bld : build) (alloc : gmap N (cell T) -> option N)
    (st : state T (Box Single)) :
  allocator alloc -> reachable bld alloc st -> owns st.
Proof.
  intros Halloc Hreach. induction Hreach as [|s o s' _ IH Hc Hrun].
  - intros x bx Hx. simpl in Hx. by rewrite lookup_empty in Hx.
  - by eapply run_op_owns.
Qed.

(** X9.  Exclusive ownership holds in every state a program reaches from the
    empty one with scalar owners, through both makers, [wrap_unchecked],
    move- and upcast-construction, both move-assignments, [unwrap],
    [crab::release], dereference and destruction: each non-empty live owner
    holds the address of a live object that no other live owner holds. *)
Theorem exclusive_ownership_in_every_reachable_state {T} (bld : build)
    (alloc : gmap N (cell T) -> option N) (st : state T (Box Single)) :
  allocator alloc ->
  reachable bld alloc st ->
  owns st.
Proof. apply reachable_owns. Qed.

Lemma exclusive_ownership_in_every_reachable_state_witness :
  owns (mkState {[ 1%N := Object 7%nat ]} []
          {[ 0%nat := mkBox Single nullptr tt; 1%nat := mkBox Single 1%N tt ]}).
Proof.
  apply (exclusive_ownership_in_every_reachable_state Debug first_fresh).
  - apply first_fresh_allocator.
  - apply (reach_step Debug first_fresh
             (mkState {[ 1%N := Object 7%nat ]} [] {[ 0%nat := mkBox Single 1%N tt ]})
             (OpMove 1 0)).
    + apply (reach_step Debug first_fresh (mkState ∅ [] ∅) (OpMake 0 7%nat)).
      * apply reach_init.
      * exact I.
      * vm_compute. reflexivity.
    + exact I.
    + vm_compute. reflexivity.
Defined.

(** X10.  No double free and no dangling owner: in every reachable state the
    destructor of a live owner returns, and a non-empty live owner
    dereferences to a value, in either build. *)
Theorem reachable_Box_is_safe_to_use {T} (bld : build)
    (alloc : gmap N (cell T) -> option N) (st : state T (Box Single)) (x : nat)
    (bx : Box Single) :
  allocator alloc ->
  reachable bld alloc st ->
  objs st !! x = Some bx ->
  (exists st', Box_dtor x st = Ok (tt, st')) /\
  (obj bx <> nullptr -> exists v, forall b, value b x st = Ok (v, st)).
Proof.
  intros Halloc Hreach Hx.
  pose proof (reachable_owns bld alloc st Halloc Hreach) as Hown.
  split.
  - destruct (decide (obj bx = nullptr)) as [Hnull|Hlive].
    + eexists. unfold Box_dtor. erewrite bind_Ok by (by eapply drop_null).
      by eapply end_lifetime_Ok.
    + destruct (Hown x bx Hx Hlive) as [[v Hv] _]. eexists. unfold Box_dtor.
      erewrite bind_Ok by (by eapply (drop_Ok Single); eauto).
      by eapply end_lifetime_Ok.
  - intros Hlive. destruct (Hown x bx Hx Hlive) as [[v Hv] _]. exists v. intros b.
    pose proof (eqb_nullptr _ Hlive) as Hne.
    destruct st as [h f o]; simpl in *.
    unfold value, deref, as_ptr, raw_ptr, lvalue, read. unfold_mem.
    destruct b; crunch; done.
Qed.

Lemma reachable_Box_is_safe_to_use_witness :
  let st := mkState {[ 1%N := Object 7%nat ]} [] {[ 0%nat := mkBox Single 1%N tt ]} in
  (exists st', Box_dtor 0 st = Ok (tt, st')) /\
  exists v, value Debug 0 st = Ok (v, st).
Proof.
  intros st.
  destruct (reachable_Box_is_safe_to_use Debug first_fresh st 0 (mkBox Single 1%N tt))
    as [Hd Hv].
  - apply first_fresh_allocator.
  - apply (reach_step Debug first_fresh (mkState ∅ [] ∅) (OpMake 0 7%nat)).
    + apply reach_init.
    + exact I.
    + vm_compute. reflexivity.
  - reflexivity.
  - split; [exact Hd|]. destruct (Hv ltac:(discriminate)) as [v Hval]. exists v. apply Hval.
Defined.
End BoxOwnership.

(** ** More of the shared owner *)
Module RcMore.
Import rc RcSpec.

Section Facts.
Context {T : Type}.
Variable w : Z.
Variable bld : build.
Implicit Types s st : state T Rc.

Lemma release_cleared x st :
  objs st !! x = Some (mkRc nullptr nullptr) -> release w bld x st = Ok (tt, st).
Proof.
  intros Hx. destruct st as [h f o]; simpl in *.
  unfold release. unfold_mem. destruct bld; crunch; reflexivity.
Qed.

Lemma release_shared x d rc n st :
  objs st !! x = Some (mkRc d rc) -> d <> nullptr -> rc <> nullptr ->
  heap st !! rc = Some (Counter n) -> 1 < n < 2 ^ w ->
  release w bld x st =
    Ok (tt, mkState (<[rc := Counter (n - 1)]> (heap st)) (freed st) (objs st)).
Proof.
  intros Hx Hd Hrc Hn Hrange. destruct st as [h f o]; simpl in *.
  pose proof (eqb_nullptr _ Hd). pose proof (eqb_nullptr _ Hrc).
  assert (Hw : usize_wrap w (n - 1) = n - 1) by (apply Z.mod_small; lia).
  assert (Hz : (n - 1 =? 0) = false) by (apply Z.eqb_neq; lia).
  unfold release, decr. unfold_mem. destruct bld; crunch; rewrite Hw; crunch; reflexivity.
Qed.

Lemma release_last x d rc v st :
  objs st !! x = Some (mkRc d rc) -> d <> nullptr -> rc <> nullptr -> d <> rc ->
  heap st !! rc = Some (Counter 1) -> heap st !! d = Some (Object v) -> 1 < 2 ^ w ->
  release w bld x st =
    Ok (tt, mkState (delete rc (delete d (heap st))) (rc :: d :: freed st) (objs st)).
Proof.
  intros Hx Hd Hrc Hne Hn Hv Hrange. destruct st as [h f o]; simpl in *.
  pose proof (eqb_nullptr _ Hd). pose proof (eqb_nullptr _ Hrc).
  assert (Hw : usize_wrap w (1 - 1) = 0) by (apply Z.mod_small; lia).
  unfold release, decr. unfold_mem. destruct bld; crunch; rewrite Hw; crunch.
  all: rewrite lookup_delete_ne by done; crunch.
  all: by rewrite delete_insert_ne, delete_insert_eq.
Qed.

(** [release] succeeds on such a handle, leaves the handle objects alone and
    touches the heap at the two addresses of the handle only. *)
Lemma release_footprint x r st :
  objs st !! x = Some r -> releasable w st r ->
  exists hp fr,
    release w bld x st = Ok (tt, mkState hp fr (objs st)) /\
    (forall q, q <> data r -> q <> ref_count r -> hp !! q = heap st !! q).
Proof.
  intros Hx [-> | (Hd & Hrc & Hne & n & v & Hn & Hv & Hrange)].
  - exists (heap st), (freed st). rewrite release_cleared by done. by destruct st.
  - destruct r as [d rc]; simpl in *. destruct (decide (n = 1)) as [->|Hn1].
    + eexists _, _. split; [by eapply release_last; eauto; lia|].
      intros q Hqd Hqrc. by rewrite !lookup_delete_ne.
    + eexists _, _. split; [by eapply release_shared; eauto; lia|].
      intros q Hqd Hqrc. by rewrite lookup_insert_ne.
Qed.

Lemma move_assign_after_release this from d2 rc2 st hp fr :
  this <> from ->
  objs st !! from = Some (mkRc d2 rc2) -> d2 <> nullptr -> rc2 <> nullptr ->
  is_Some (objs st !! this) ->
  release w bld this st = Ok (tt, mkState hp fr (objs st)) ->
  move_assign w bld this from st =
    Ok (tt, mkState hp fr
              (<[this := mkRc d2 rc2]> (<[from := mkRc nullptr nullptr]> (objs st)))).
Proof.
  intros Hne Hfrom Hd Hrc [r Hthis] Hrel.
  pose proof (eqb_nullptr _ Hd). pose proof (eqb_nullptr _ Hrc).
  unfold move_assign. erewrite bind_Ok by exact Hrel.
  unfold exchange_data, exchange_ref_count, set_data, set_ref_count. unfold_mem.
  destruct bld; crunch; do 3 f_equal; apply map_eq; intros k;
    repeat (rewrite lookup_insert; case_decide; simplify_eq; try done).
Qed.

Lemma self_assign_after_release a d rc st hp fr :
  objs st !! a = Some (mkRc d rc) -> d <> nullptr -> rc <> nullptr ->
  release w bld a st = Ok (tt, mkState hp fr (objs st)) ->
  copy_assign w bld a a st = Ok (tt, mkState hp fr (objs st)) /\
  move_assign w bld a a st = Ok (tt, mkState hp fr (objs st)).
Proof.
  intros Ha Hd Hrc Hrel.
  pose proof (eqb_nullptr _ Hd). pose proof (eqb_nullptr _ Hrc).
  split.
  - unfold copy_assign. erewrite bind_Ok by exact Hrel.
    unfold set_data, set_ref_count. unfold_mem.
    destruct bld; crunch; by rewrite insert_id.
  - unfold move_assign. erewrite bind_Ok by exact Hrel.
    unfold exchange_data, exchange_ref_count, set_data, set_ref_count. unfold_mem.
    destruct bld; crunch; by rewrite insert_id.
Qed.

Lemma value_Ok x d rc v st :
  objs st !! x = Some (mkRc d rc) -> d <> nullptr -> rc <> nullptr ->
  heap st !! d = Some (Object v) ->
  (r <- deref bld x ;; read r) st = Ok (v, st).
Proof.
  intros Hx Hd Hrc Hv. destruct st as [h f o]; simpl in *.
  pose proof (eqb_nullptr _ Hd). pose proof (eqb_nullptr _ Hrc).
  unfold deref, raw_ptr, lvalue, read. unfold_mem. destruct bld; crunch; reflexivity.
Qed.

Lemma value_dangling x d rc st :
  objs st !! x = Some (mkRc d rc) -> d <> nullptr -> rc <> nullptr ->
  heap st !! d = None ->
  (r <- deref bld x ;; read r) st = Fault (UndefinedBehaviour UseAfterFree).
Proof.
  intros Hx Hd Hrc Hv. destruct st as [h f o]; simpl in *.
  pose proof (eqb_nullptr _ Hd). pose proof (eqb_nullptr _ Hrc).
  unfold deref, raw_ptr, lvalue, read. unfold_mem. destruct bld; crunch; reflexivity.
Qed.
End Facts.

(** X11.  A shared owner made from a value dereferences to that value and is the
    only owner: its destructor frees payload and counter and leaves the heap
    as it was before the construction. *)
Theorem Rc_from_value_then_drop {T} (w : Z) (bld : build)
    (alloc : gmap N (cell T) -> option N) (this : nat) (v : T) (st st' : state T Rc) :
  allocator alloc -> 1 < 2 ^ w ->
  objs st !! this = None ->
  Rc_from_value w bld alloc this v st = Ok (tt, st') ->
  exists d rc,
    objs st' !! this = Some (mkRc d rc) /\
    heap st' !! rc = Some (Counter 1) /\
    (r <- deref bld this ;; read r) st' = Ok (v, st') /\
    Rc_dtor w bld this st' = Ok (tt, mkState (heap st) (rc :: d :: freed st) (objs st)).
Proof.
  intros Halloc Hw Hthis Hrun.
  apply Rc_from_value_inv in Hrun as (d & rc & Hd & Hrc & Hne & Hdf & Hrcf & ->); try done.
  exists d, rc. simpl. split; [apply lookup_insert_eq|]. split; [apply lookup_insert_eq|].
  split.
  - apply (value_Ok bld this d rc v); simpl; try done; [apply lookup_insert_eq|].
    rewrite lookup_insert_ne by done. apply lookup_insert_eq.
  - rewrite (Rc_dtor_last w bld this d rc v); simpl; try done.
    + do 3 f_equal.
      * apply map_eq. intros i.
        destruct (decide (i = rc)) as [->|]; [by rewrite lookup_delete_eq|].
        rewrite lookup_delete_ne by done.
        destruct (decide (i = d)) as [->|]; [by rewrite lookup_delete_eq|].
        by rewrite lookup_delete_ne, !lookup_insert_ne.
      * by rewrite delete_insert_eq, delete_id.
    + apply lookup_insert_eq.
    + apply lookup_insert_eq.
    + rewrite lookup_insert_ne by done. apply lookup_insert_eq.
Qed.

Lemma Rc_from_value_then_drop_witness :
  let st' := mkState {[ 1%N := Object 7%nat; 2%N := Counter 1 ]} [] {[ 0%nat := mkRc 1 2 ]} in
  exists d rc,
    (r <- deref Debug 0 ;; read r) st' = Ok (7%nat, st') /\
    Rc_dtor 64 Debug 0 st' = Ok (tt, mkState ∅ [rc; d] ∅).
Proof.
  intros st'.
  destruct (Rc_from_value_then_drop 64 Debug first_fresh 0 7%nat (mkState ∅ [] ∅) st')
    as (d & rc & _ & _ & Hv & Hd);
    [apply first_fresh_allocator | reflexivity | reflexivity | vm_compute; reflexivity |].
  exists d, rc. auto.
Defined.

(** X12.  Copy-construction followed by the destruction of the copy leaves the
    state as it was: the counter goes up by one and down again.  In between
    the copy dereferences to the payload of the source. *)
Theorem Rc_copy_then_drop_is_identity {T} (w : Z) (bld : build) (x from : nat)
    (d rc : N) (n : Z) (v : T) (st : state T Rc) :
  objs st !! from = Some (mkRc d rc) -> objs st !! x = None ->
  d <> nullptr -> rc <> nullptr -> d <> rc ->
  heap st !! rc = Some (Counter n) -> heap st !! d = Some (Object v) ->
  1 <= n -> n + 1 < 2 ^ w ->
  (Rc_copy w bld x from ;; r <- deref bld x ;; read r) st =
    Ok (v, mkState (<[rc := Counter (n + 1)]> (heap st)) (freed st)
             (<[x := mkRc d rc]> (objs st))) /\
  (Rc_copy w bld x from ;; Rc_dtor w bld x) st = Ok (tt, st).
Proof.
  intros Hfrom Hx Hd Hrc Hne Hn Hv Hn1 Hlt.
  pose proof (Rc_copy_Ok w bld x from d rc n st Hfrom Hx Hd Hrc Hn) as Hcopy.
  rewrite usize_wrap_small in Hcopy by lia.
  split.
  - erewrite bind_Ok by exact Hcopy.
    apply (value_Ok bld x d rc v); simpl; try done; [apply lookup_insert_eq|].
    by rewrite lookup_insert_ne.
  - erewrite bind_Ok by exact Hcopy.
    rewrite (Rc_dtor_shared w bld x d rc (n + 1) v); simpl; try done; try lia.
    + destruct st as [h f o]; simpl in *. do 3 f_equal.
      * rewrite insert_insert_eq. replace (n + 1 - 1) with n by lia. by apply insert_id.
      * by rewrite delete_insert_eq, delete_id.
    + apply lookup_insert_eq.
    + apply lookup_insert_eq.
    + by rewrite lookup_insert_ne.
Qed.

Lemma Rc_copy_then_drop_is_identity_witness :
  let st := mkState {[ 1%N := Object 7%nat; 2%N := Counter 1 ]} [] {[ 0%nat := mkRc 1 2 ]} in
  (Rc_copy 64 Debug 1 0 ;; Rc_dtor 64 Debug 1) st = Ok (tt, st).
Proof.
  intros st.
  apply (Rc_copy_then_drop_is_identity 64 Debug 1 0 1%N 2%N 1 7%nat st);
    try reflexivity; try discriminate; lia.
Defined.

(** X13.  Move-assignment [this = std::move(from)] between two objects: it is
    [release()] on the destination followed by a transfer of the two
    addresses.  Heap and deallocation log end as [release()] on the
    destination leaves them: unchanged for a cleared destination, the old
    counter one lower when it read more than 1, old payload and old counter
    freed when it read 1.  The destination then holds the pair of [from],
    [from] is cleared, and every cell other than the old payload and the old
    counter of the destination is as it was: the transfer increments no
    counter. *)
Theorem Rc_move_assign_transfers_pair {T} (w : Z) (bld : build) (this from : nat)
    (r1 : Rc) (d2 rc2 : N) (st : state T Rc) :
  this <> from ->
  objs st !! this = Some r1 -> releasable w st r1 ->
  objs st !! from = Some (mkRc d2 rc2) -> d2 <> nullptr -> rc2 <> nullptr ->
  exists st' st1,
    move_assign w bld this from st = Ok (tt, st') /\
    objs st' = <[this := mkRc d2 rc2]> (<[from := mkRc nullptr nullptr]> (objs st)) /\
    (forall q, q <> data r1 -> q <> ref_count r1 -> heap st' !! q = heap st !! q) /\
    release w bld this st = Ok (tt, st1) /\
    heap st' = heap st1 /\ freed st' = freed st1 /\
    (r1 = mkRc nullptr nullptr -> heap st' = heap st /\ freed st' = freed st) /\
    (forall n, ref_count r1 <> nullptr -> heap st !! ref_count r1 = Some (Counter n) ->
       (1 < n ->
          heap st' = <[ref_count r1 := Counter (n - 1)]> (heap st) /\ freed st' = freed st) /\
       (n = 1 ->
          heap st' = delete (ref_count r1) (delete (data r1) (heap st)) /\
          freed st' = ref_count r1 :: data r1 :: freed st)).
Proof.
  intros Hne Hthis Hrel Hfrom Hd Hrc.
  destruct (release_footprint w bld this r1 st Hthis Hrel) as (hp & fr & Hrun & Hfoot).
  exists (mkState hp fr
            (<[this := mkRc d2 rc2]> (<[from := mkRc nullptr nullptr]> (objs st)))),
         (mkState hp fr (objs st)).
  split; [by eapply move_assign_after_release|].
  split; [done|]. split; [exact Hfoot|]. split; [exact Hrun|].
  split; [done|]. split; [done|]. simpl.
  destruct Hrel as [-> | (Hd1 & Hrc1 & Hne1 & n & v & Hn & Hv & Hrange)].
  - rewrite release_cleared in Hrun by done. destruct st as [h f o]; simplify_eq/=.
    split; [done|]. intros n Hnull. done.
  - destruct r1 as [d1 rc1]; simpl in *.
    split; [intros Heq; simplify_eq|].
    intros n' _ Hn'. rewrite Hn in Hn'. simplify_eq. split.
    + intros Hgt. erewrite release_shared in Hrun; eauto; [|lia]. by simplify_eq.
    + intros ->. erewrite release_last in Hrun; eauto; [|lia]. by simplify_eq.
Qed.

Lemma Rc_move_assign_transfers_pair_witness :
  let st := mkState {[ 1%N := Object 7%nat; 2%N := Counter 1;
                       3%N := Object 8%nat; 4%N := Counter 1 ]} []
              {[ 0%nat := mkRc 1 2; 1%nat := mkRc 3 4 ]} in
  exists st',
    move_assign 64 Debug 1 0 st = Ok (tt, st') /\
    objs st' = {[ 0%nat := mkRc nullptr nullptr; 1%nat := mkRc 1 2 ]} /\
    heap st' !! 2%N = Some (Counter 1) /\
    freed st' = [4%N; 3%N].
Proof.
  intros st.
  destruct (Rc_move_assign_transfers_pair 64 Debug 1 0 (mkRc 3 4) 1%N 2%N st)
    as (st' & st1 & Hrun & Hobjs & Hfoot & _ & _ & _ & _ & Hcases);
    [lia | reflexivity | | reflexivity | discriminate | discriminate |].
  - right. simpl. repeat split; try discriminate.
    exists 1, 8%nat. repeat split; try reflexivity; lia.
  - exists st'. split; [exact Hrun|]. split; [|split].
    + rewrite Hobjs. vm_compute. reflexivity.
    + rewrite Hfoot by discriminate. reflexivity.
    + destruct (Hcases 1 ltac:(discriminate) eq_refl) as [_ Hlast].
      by destruct (Hlast eq_refl) as [_ ->].
Defined.

(** X14.  Self-assignment [a = a] and [a = std::move(a)] of a valid owner: both run
    [release()] and then put the two addresses back.  With other owners
    around, the counter drops by one although no owner went away; for a sole
    owner, payload and counter are freed and the handle is left pointing at
    them, so that the next dereference is a use after free. *)
Theorem Rc_self_assign_releases {T} (w : Z) (bld : build) (a : nat) (d rc : N)
    (n : Z) (v : T) (st : state T Rc) :
  objs st !! a = Some (mkRc d rc) ->
  d <> nullptr -> rc <> nullptr -> d <> rc ->
  heap st !! rc = Some (Counter n) -> heap st !! d = Some (Object v) ->
  1 <= n -> n < 2 ^ w ->
  exists st',
    copy_assign w bld a a st = Ok (tt, st') /\
    move_assign w bld a a st = Ok (tt, st') /\
    objs st' = objs st /\
    (1 < n -> heap st' = <[rc := Counter (n - 1)]> (heap st) /\ freed st' = freed st) /\
    (n = 1 -> heap st' = delete rc (delete d (heap st)) /\ freed st' = rc :: d :: freed st /\
              (r <- deref bld a ;; read r) st' = Fault (UndefinedBehaviour UseAfterFree)).
Proof.
  intros Ha Hd Hrc Hne Hn Hv Hn1 Hlt.
  destruct (decide (n = 1)) as [->|Hn2].
  - pose proof (release_last w bld a d rc v st Ha Hd Hrc Hne Hn Hv ltac:(lia)) as Hrel.
    destruct (self_assign_after_release w bld a d rc st _ _ Ha Hd Hrc Hrel) as [Hc Hm].
    eexists. split; [exact Hc|]. split; [exact Hm|]. simpl. split; [done|].
    split; [lia|]. intros _. split; [done|]. split; [done|].
    apply (value_dangling bld a d rc); simpl; try done.
    rewrite lookup_delete_ne by done. apply lookup_delete_eq.
  - pose proof (release_shared w bld a d rc n st Ha Hd Hrc Hn ltac:(lia)) as Hrel.
    destruct (self_assign_after_release w bld a d rc st _ _ Ha Hd Hrc Hrel) as [Hc Hm].
    eexists. split; [exact Hc|]. split; [exact Hm|]. simpl. split; [done|].
    split; [done|]. lia.
Qed.

Lemma Rc_self_assign_releases_witness :
  let st := mkState {[ 1%N := Object 7%nat; 2%N := Counter 1 ]} [] {[ 0%nat := mkRc 1 2 ]} in
  exists st',
    move_assign 64 Debug 0 0 st = Ok (tt, st') /\
    freed st' = [2%N; 1%N] /\
    (r <- deref Debug 0 ;; read r) st' = Fault (UndefinedBehaviour UseAfterFree).
Proof.
  intros st.
  destruct (Rc_self_assign_releases 64 Debug 0 1%N 2%N 1 7%nat st)
    as (st' & _ & Hm & _ & _ & Hlast);
    try reflexivity; try discriminate; try lia.
  destruct (Hlast eq_refl) as (_ & Hf & Hv).
  exists st'. auto.
Defined.

(** X15.  A cleared (moved-from) owner: its destructor does nothing, in either
    build; dereferencing it stops at the assertion of [raw_ptr] in a debug
    build; copy-construction from it never returns an owner: a debug build
    stops at the constructor's assertion, a release build dereferences the
    null counter. *)
Theorem cleared_Rc_is_inert {T} (w : Z) (a x : nat) (st : state T Rc) :
  objs st !! a = Some (mkRc nullptr nullptr) ->
  objs st !! x = None ->
  (forall bld, Rc_dtor w bld a st = Ok (tt, mkState (heap st) (freed st) (delete a (objs st)))) /\
  raw_ptr Debug a st = Fault (AssertionFailure "Corrupted Rc<T>, data is nullptr") /\
  deref Debug a st = Fault (AssertionFailure "Corrupted Rc<T>, data is nullptr") /\
  Rc_copy w Debug x a st = Fault (AssertionFailure "Corrupted Rc<T>, data is nullptr") /\
  Rc_copy w Release x a st = Fault (UndefinedBehaviour NullDeref).
Proof.
  intros Ha Hx. assert (a <> x) by congruence.
  destruct st as [h f o]; simpl in *. split; [|split; [|split; [|split]]].
  - intros bld. unfold Rc_dtor, release. unfold_mem. destruct bld; crunch; reflexivity.
  - unfold raw_ptr. unfold_mem. crunch. reflexivity.
  - unfold deref, raw_ptr. unfold_mem. crunch. reflexivity.
  - unfold Rc_copy, Rc_from_parts. unfold_mem. crunch. reflexivity.
  - unfold Rc_copy, Rc_from_parts, incr. unfold_mem. crunch. reflexivity.
Qed.

Lemma cleared_Rc_is_inert_witness :
  let st := mkState (T:=nat) ∅ [] {[ 0%nat := mkRc nullptr nullptr ]} in
  Rc_dtor 64 Debug 0 st = Ok (tt, mkState ∅ [] ∅) /\
  Rc_copy 64 Release 1 0 st = Fault (UndefinedBehaviour NullDeref).
Proof.
  intros st.
  destruct (cleared_Rc_is_inert 64 0 1 st eq_refl eq_refl) as (Hd & _ & _ & _ & Hc).
  split; [|exact Hc]. rewrite (Hd Debug). vm_compute. reflexivity.
Defined.

(** X16.  A handle with one address null and the other not: in a debug build
    [release()], and so the destructor and both assignments into it, stops
    at the assertion that names the mismatch. *)
Theorem unpaired_Rc_release_aborts {T} (w : Z) (a from : nat) (d rc : N) (st : state T Rc) :
  objs st !! a = Some (mkRc d rc) ->
  (d = nullptr /\ rc <> nullptr \/ d <> nullptr /\ rc = nullptr) ->
  let msg := if N.eqb rc nullptr
             then "Corrupted Rc<T>, missing reference count but kept data"
             else "Corrupted Rc<T>, missing data but kept reference count" in
  release w Debug a st = Fault (AssertionFailure msg) /\
  Rc_dtor w Debug a st = Fault (AssertionFailure msg) /\
  copy_assign w Debug a from st = Fault (AssertionFailure msg) /\
  move_assign w Debug a from st = Fault (AssertionFailure msg).
Proof.
  intros Ha Hcase msg.
  assert (Hrel : release w Debug a st = Fault (AssertionFailure msg)).
  { destruct st as [h f o]; simpl in *. subst msg.
    destruct Hcase as [[-> Hrc] | [Hd ->]].
    - pose proof (eqb_nullptr _ Hrc) as E. rewrite E.
      unfold release. unfold_mem. crunch. reflexivity.
    - pose proof (eqb_nullptr _ Hd) as E.
      unfold release. unfold_mem. crunch. reflexivity. }
  split; [exact Hrel|].
  unfold Rc_dtor, copy_assign, move_assign, bind. by rewrite Hrel.
Qed.

Lemma unpaired_Rc_release_aborts_witness :
  Rc_dtor 64 Debug 0 (mkState (T:=nat) {[ 2%N := Counter 1 ]} [] {[ 0%nat := mkRc nullptr 2 ]}) =
    Fault (AssertionFailure "Corrupted Rc<T>, missing data but kept reference count").
Proof.
  destruct (unpaired_Rc_release_aborts 64 0 0 nullptr 2%N
              (mkState (T:=nat) {[ 2%N := Counter 1 ]} [] {[ 0%nat := mkRc nullptr 2 ]}))
    as (_ & Hd & _); [reflexivity | left; split; [reflexivity | discriminate] |].
  exact Hd.
Defined.

(** X17.  [from_owned_unchecked(box)]: with a non-null address the new owner holds
    [box] and a fresh counter that reads 1.  With nullptr a debug build stops
    at the constructor's assertion, and a release build returns a handle
    with null [data] and a live counter, whose destructor frees the counter
    alone. *)
Theorem from_owned_unchecked_registers_one {T} (w : Z)
    (alloc : gmap N (cell T) -> option N) (this : nat) (box rc : N) (st : state T Rc) :
  allocator alloc -> 1 < 2 ^ w ->
  objs st !! this = None ->
  alloc (heap st) = Some rc ->
  (box <> nullptr ->
     forall bld,
       from_owned_unchecked w bld alloc this box st =
         Ok (tt, mkState (<[rc := Counter 1]> (heap st)) (freed st)
                   (<[this := mkRc box rc]> (objs st)))) /\
  (box = nullptr ->
     from_owned_unchecked w Debug alloc this box st =
       Fault (AssertionFailure "Corrupted Rc<T>, data is nullptr") /\
     (from_owned_unchecked w Release alloc this box ;; Rc_dtor w Release this) st =
       Ok (tt, mkState (heap st) (rc :: freed st) (objs st))).
Proof.
  intros Halloc Hw Hthis Hrc.
  destruct (Halloc _ _ Hrc) as [Hnull Hfresh].
  pose proof (eqb_nullptr _ Hnull) as Erc.
  assert (Hw1 : usize_wrap w (0 + 1) = 1) by (apply Z.mod_small; lia).
  assert (Hw0 : usize_wrap w (1 - 1) = 0) by (apply Z.mod_small; lia).
  destruct st as [h f o]; simpl in *. split.
  - intros Hbox bld. pose proof (eqb_nullptr _ Hbox) as Ebox.
    unfold from_owned_unchecked, Rc_from_parts, incr. unfold_mem. simpl. rewrite Hrc.
    destruct bld; crunch; rewrite Hw1; reflexivity.
  - intros ->. split.
    + unfold from_owned_unchecked, Rc_from_parts, incr. unfold_mem. simpl. rewrite Hrc.
      crunch. reflexivity.
    + unfold from_owned_unchecked, Rc_from_parts, incr, Rc_dtor, release, decr.
      unfold_mem. simpl. rewrite Hrc. crunch. rewrite Hw1. crunch. rewrite Hw0. crunch.
      by rewrite !delete_insert_eq, !delete_id.
Qed.

Lemma from_owned_unchecked_registers_one_witness :
  from_owned_unchecked 64 Debug first_fresh 0 5%N (mkState (T:=nat) ∅ [] ∅) =
    Ok (tt, mkState {[ 1%N := Counter 1 ]} [] {[ 0%nat := mkRc 5 1 ]}).
Proof.
  destruct (from_owned_unchecked_registers_one 64 first_fresh 0 5%N 1%N
              (mkState (T:=nat) ∅ [] ∅))
    as [Hok _]; [apply first_fresh_allocator | reflexivity | reflexivity | reflexivity |].
  rewrite (Hok ltac:(discriminate) Debug). vm_compute. reflexivity.
Defined.
End RcMore.
